(** * calendar_sync: Exchange -> Google Calendar one-way synchronisation

    Shallow embedding of [calendar_sync.py] and the properties of its
    normaliser ([transform_event], [hash_event]) and of its reconciliation
    pass ([main]).

    Conventions of the embedding:
    - a Python [str] is a [string]; each character stands for one code
      point below 256, so that the order on strings is Python's order on
      [str] and the JSON encoder escapes exactly what [ensure_ascii] escapes;
    - a Python [dict] is an association list in insertion order with
      pairwise distinct keys;
    - a [datetime] of the source system is UTC-aware and of whole seconds,
      as pyexchange hands it over: the number of seconds since
      1970-01-01T00:00:00 UTC;
    - an exception is an explicit result; the mutations sent to the
      destination before it was raised are kept in the log.  The calls to
      the two calendar systems are taken to succeed. *)

From Stdlib Require Import ZArith List Bool Ascii String Lia Sorting.Sorted
  Sorting.Permutation.
Import ListNotations.

Local Open Scope string_scope.
Local Open Scope list_scope.
Local Open Scope Z_scope.

(* ------------------------------------------------------------------ *)
(** ** hashlib.sha1 (FIPS 180-4), on 32-bit words held in [Z] *)

Module Sha1.

Definition w32 (x : Z) : Z := x mod 4294967296.

Definition add32 (x y : Z) : Z := w32 (x + y).

Definition rotl (n x : Z) : Z :=
  w32 (Z.lor (Z.shiftl x n) (Z.shiftr x (32 - n))).

Definition not32 (x : Z) : Z := 4294967295 - x.

Definition bytes_of_string (s : string) : list Z :=
  map (fun c => Z.of_N (N_of_ascii c)) (list_ascii_of_string s).

(** big-endian bytes of [x], [n] of them *)
Fixpoint be_bytes (n : nat) (x : Z) : list Z :=
  match n with
  | O => []
  | S k => be_bytes k (Z.shiftr x 8) ++ [x mod 256]
  end.

(** message ++ 0x80 ++ zeros ++ 64-bit length in bits, a multiple of 64 bytes *)
Definition pad (msg : list Z) : list Z :=
  let len := Z.of_nat (List.length msg) in
  let zeros := Z.to_nat ((55 - len) mod 64) in
  msg ++ [128] ++ repeat 0 zeros ++ be_bytes 8 (8 * len).

Fixpoint words_of_bytes (n : nat) (bs : list Z) : list Z :=
  match n with
  | O => []
  | S k =>
      match bs with
      | b0 :: b1 :: b2 :: b3 :: rest =>
          (((b0 * 256 + b1) * 256 + b2) * 256 + b3) :: words_of_bytes k rest
      | _ => []
      end
  end.

Record state := mk_state { ha : Z; hb : Z; hc : Z; hd : Z; he : Z }.

Definition init : state :=
  mk_state 1732584193 4023233417 2562383102 271733878 3285377520.

Definition f_k (t : nat) (b c d : Z) : Z * Z :=
  if Nat.ltb t 20 then
    (Z.lor (Z.land b c) (Z.land (not32 b) d), 1518500249)
  else if Nat.ltb t 40 then
    (Z.lxor (Z.lxor b c) d, 1859775393)
  else if Nat.ltb t 60 then
    (Z.lor (Z.lor (Z.land b c) (Z.land b d)) (Z.land c d), 2400959708)
  else
    (Z.lxor (Z.lxor b c) d, 3395469782).

Definition round (t : nat) (w : Z) (s : state) : state :=
  let (f, k) := f_k t (hb s) (hc s) (hd s) in
  let tmp := add32 (add32 (add32 (add32 (rotl 5 (ha s)) f) (he s)) k) w in
  mk_state tmp (ha s) (rotl 30 (hb s)) (hc s) (hd s).

(** the schedule word that follows a window of the last sixteen *)
Definition next_word (win : list Z) : Z :=
  rotl 1 (Z.lxor (Z.lxor (Z.lxor (nth 13 win 0) (nth 8 win 0)) (nth 2 win 0))
                 (nth 0 win 0)).

(** rounds [t .. t+n-1]; [win] holds the words [w(t) .. w(t+15)] *)
Fixpoint rounds (n t : nat) (win : list Z) (s : state) : state :=
  match n with
  | O => s
  | S k =>
      let w := nth 0 win 0 in
      rounds k (S t) (tl win ++ [next_word win]) (round t w s)
  end.

Definition compress (s : state) (block : list Z) : state :=
  let r := rounds 80 0 (words_of_bytes 16 block) s in
  mk_state (add32 (ha s) (ha r)) (add32 (hb s) (hb r)) (add32 (hc s) (hc r))
           (add32 (hd s) (hd r)) (add32 (he s) (he r)).

Fixpoint blocks (n : nat) (bs : list Z) (s : state) : state :=
  match n with
  | O => s
  | S k => blocks k (skipn 64 bs) (compress s (firstn 64 bs))
  end.

Definition digest (msg : list Z) : state :=
  let p := pad msg in
  blocks (Nat.div (List.length p) 64) p init.

Definition hexdigit (x : Z) : ascii :=
  let d := x mod 16 in
  ascii_of_N (Z.to_N (if d <? 10 then 48 + d else 87 + d)).

Definition hex8 (x : Z) (rest : string) : string :=
  String (hexdigit (Z.shiftr x 28)) (String (hexdigit (Z.shiftr x 24))
  (String (hexdigit (Z.shiftr x 20)) (String (hexdigit (Z.shiftr x 16))
  (String (hexdigit (Z.shiftr x 12)) (String (hexdigit (Z.shiftr x 8))
  (String (hexdigit (Z.shiftr x 4)) (String (hexdigit x) rest))))))).

(** [hashlib.sha1(data).hexdigest()] *)
Definition hexdigest (data : string) : string :=
  let s := digest (bytes_of_string data) in
  hex8 (ha s) (hex8 (hb s) (hex8 (hc s) (hex8 (hd s) (hex8 (he s) "")))).

End Sha1.

(* ------------------------------------------------------------------ *)
(** ** Python dictionaries with [str] keys, in insertion order *)

Module Dict.

Section Ops.
Context {V : Type}.

(** [d.get(k)] *)
Fixpoint get (k : string) (d : list (string * V)) : option V :=
  match d with
  | [] => None
  | (k', v) :: rest => if String.eqb k k' then Some v else get k rest
  end.

(** [d[k] = v]: an existing key keeps its place, a new one goes last *)
Fixpoint set (k : string) (v : V) (d : list (string * V)) : list (string * V) :=
  match d with
  | [] => [(k, v)]
  | (k', v') :: rest =>
      if String.eqb k k' then (k, v) :: rest else (k', v') :: set k v rest
  end.

(** what is left of [d] after [d.pop(k)] *)
Fixpoint pop (k : string) (d : list (string * V)) : list (string * V) :=
  match d with
  | [] => []
  | (k', v) :: rest => if String.eqb k k' then rest else (k', v) :: pop k rest
  end.

Definition keys (d : list (string * V)) : list string := map fst d.

End Ops.

End Dict.

(* ------------------------------------------------------------------ *)
(** ** [sorted(l, key=...)] on string keys: a stable insertion sort *)

(** the order of [str]: code point by code point *)
Definition str_le (a b : string) : Prop := String.leb a b = true.

Section Sorted.
Context {A : Type} (key : A -> string).

(** the order that [key] induces *)
Definition le_by (a b : A) : Prop := str_le (key a) (key b).

Fixpoint insert_by (x : A) (l : list A) : list A :=
  match l with
  | [] => [x]
  | y :: rest =>
      if String.leb (key x) (key y) then x :: l else y :: insert_by x rest
  end.

Definition sorted (l : list A) : list A := fold_right insert_by [] l.

End Sorted.

(* ------------------------------------------------------------------ *)
(** ** The values [json.dumps] is given, and [json.dumps(..., sort_keys=True)] *)

#[local] Set Warnings "-register-all".

Inductive json : Type :=
| JNull
| JBool (b : bool)
| JStr (s : string)
| JList (l : list json)
| JDict (d : list (string * json)).

Module Json.

Definition hex4 (x : Z) : string :=
  String (Sha1.hexdigit (Z.shiftr x 12)) (String (Sha1.hexdigit (Z.shiftr x 8))
  (String (Sha1.hexdigit (Z.shiftr x 4)) (String (Sha1.hexdigit x) EmptyString))).

Definition backslash : ascii := "092"%char.
Definition dquote : ascii := "034"%char.

(** one character under [ensure_ascii=True] *)
Definition escape_char (c : ascii) : string :=
  let n := Z.of_N (N_of_ascii c) in
  if n =? 34 then String backslash (String dquote EmptyString)
  else if n =? 92 then String backslash (String backslash EmptyString)
  else if n =? 8 then String backslash "b"
  else if n =? 12 then String backslash "f"
  else if n =? 10 then String backslash "n"
  else if n =? 13 then String backslash "r"
  else if n =? 9 then String backslash "t"
  else if (32 <=? n) && (n <=? 126) then String c EmptyString
  else String backslash (String "u"%char (hex4 n)).

Fixpoint escape (s : string) : string :=
  match s with
  | EmptyString => EmptyString
  | String c rest => escape_char c ++ escape rest
  end.

Definition encode_str (s : string) : string :=
  String dquote (escape s ++ String dquote EmptyString).

Definition item (kv : string * string) : string :=
  encode_str (fst kv) ++ ": " ++ snd kv.

(** default separators [", "] and [": "]; the keys of every dictionary
    are emitted in ascending order *)
Fixpoint dumps (j : json) : string :=
  match j with
  | JNull => "null"
  | JBool b => if b then "true" else "false"
  | JStr s => encode_str s
  | JList l => "[" ++ String.concat ", " (map dumps l) ++ "]"
  | JDict d =>
      "{" ++ String.concat ", "
               (map item (sorted fst (map (fun kv => (fst kv, dumps (snd kv))) d)))
          ++ "}"
  end.

End Json.

(** [hash_event] *)
Definition hash_event (event_body : list (string * json)) : string :=
  let event_json := Json.dumps (JDict event_body) in
  Sha1.hexdigest event_json.

(* ------------------------------------------------------------------ *)
(** ** The fragment of [re] the program uses *)

Module Re.

(** a character class of one character, as a literal or its negation *)
Inductive atom : Type :=
| Lit (c : ascii)        (* c, also written \c *)
| Not (c : ascii).       (* [^c] *)

Inductive piece : Type :=
| One (a : atom)         (* a *)
| Plus (a : atom).       (* a+ *)

Definition accepts (a : atom) (c : ascii) : bool :=
  match a with
  | Lit x => Ascii.eqb c x
  | Not x => negb (Ascii.eqb c x)
  end.

(** does the pattern match some prefix of [s]?  ([re.match] anchors the
    pattern at the start of the string only) *)
Fixpoint prefix_match (s : string) (p : list piece) {struct s} : bool :=
  match p with
  | [] => true
  | One a :: p' =>
      match s with
      | EmptyString => false
      | String c s' => accepts a c && prefix_match s' p'
      end
  | Plus a :: p' =>
      match s with
      | EmptyString => false
      | String c s' =>
          accepts a c && (prefix_match s' (Plus a :: p') || prefix_match s' p')
      end
  end.

(** truth value of [re.match(p, s)] *)
Definition re_match (p : list piece) (s : string) : bool := prefix_match s p.

(** the same pattern matched against the whole of [s] ([re.fullmatch]);
    the program does not call it, the properties compare it with [re_match] *)
Fixpoint full_match (s : string) (p : list piece) {struct s} : bool :=
  match p with
  | [] => match s with EmptyString => true | _ => false end
  | One a :: p' =>
      match s with
      | EmptyString => false
      | String c s' => accepts a c && full_match s' p'
      end
  | Plus a :: p' =>
      match s with
      | EmptyString => false
      | String c s' =>
          accepts a c && (full_match s' (Plus a :: p') || full_match s' p')
      end
  end.

(** the strings a pattern denotes *)
Inductive matches : list piece -> string -> Prop :=
| matches_nil : matches [] EmptyString
| matches_one a p c s :
    accepts a c = true -> matches p s -> matches (One a :: p) (String c s)
| matches_plus_more a p c s :
    accepts a c = true -> matches (Plus a :: p) s ->
    matches (Plus a :: p) (String c s)
| matches_plus_last a p c s :
    accepts a c = true -> matches p s -> matches (Plus a :: p) (String c s).

End Re.

(** [r"[^@]+@[^@]+\.[^@]+"] *)
Definition email_pattern : list Re.piece :=
  [Re.Plus (Re.Not "@"); Re.One (Re.Lit "@"); Re.Plus (Re.Not "@");
   Re.One (Re.Lit "."); Re.Plus (Re.Not "@")].

(* ------------------------------------------------------------------ *)
(** ** [datetime]: instants, time zones, calendar dates, [isoformat] *)

Module Datetime.

(** seconds since the epoch, UTC *)
Definition datetime := Z.

(** a [pytz] zone: its offset from UTC, in seconds, at a UTC instant *)
Definition tzinfo := Z -> Z.

Definition utc : tzinfo := fun _ => 0.

Definition timedelta (days seconds : Z) : Z := days * 86400 + seconds.

Record date := mk_date { year : Z; month : Z; day : Z }.

(** the proleptic Gregorian date of a day number counted from 1970-01-01 *)
Definition date_of_days (n : Z) : date :=
  let z := n + 719468 in
  let era := z / 146097 in
  let doe := z - era * 146097 in
  let yoe := (doe - doe / 1460 + doe / 36524 - doe / 146096) / 365 in
  let doy := doe - (365 * yoe + yoe / 4 - yoe / 100) in
  let mp := (5 * doy + 2) / 153 in
  let d := doy - (153 * mp + 2) / 5 + 1 in
  let m := if mp <? 10 then mp + 3 else mp - 9 in
  mk_date (yoe + era * 400 + (if m <=? 2 then 1 else 0)) m d.

(** [dt.astimezone(tz).date()] *)
Definition local_date (tz : tzinfo) (dt : datetime) : date :=
  date_of_days ((dt + tz dt) / 86400).

Definition digit (x : Z) : ascii := ascii_of_N (Z.to_N (48 + x mod 10)).

Definition dec2 (x : Z) (rest : string) : string :=
  String (digit (x / 10)) (String (digit x) rest).

Definition dec4 (x : Z) (rest : string) : string :=
  String (digit (x / 1000)) (String (digit (x / 100)) (dec2 x rest)).

(** [date.isoformat()], YYYY-MM-DD *)
Definition date_isoformat (d : date) : string :=
  dec4 (year d) ("-" ++ dec2 (month d) ("-" ++ dec2 (day d) EmptyString)).

(** [isoformat()] of a UTC-aware datetime of whole seconds,
    YYYY-MM-DDTHH:MM:SS+00:00 *)
Definition isoformat (dt : datetime) : string :=
  let d := date_of_days (dt / 86400) in
  let s := dt mod 86400 in
  dec4 (year d) ("-" ++ dec2 (month d) ("-" ++ dec2 (day d)
    ("T" ++ dec2 (s / 3600) (":" ++ dec2 (s / 60 mod 60)
       (":" ++ dec2 (s mod 60) "+00:00"))))).

End Datetime.

(* ------------------------------------------------------------------ *)
(** ** Configuration and the sync window (module level, lines 18-35) *)

Definition RESPONSE_MAPPING : list (string * string) :=
  [("Unknown", "needsAction");
   ("Accepted", "accepted");
   ("TentativelyAccepted", "tentative");
   ("Declined", "declined")].

(** the options of [calendar_sync.ini] the modelled code reads; an option
    that [getint] is given a fallback for may be absent *)
Record config := mk_config {
  Timezone : Datetime.tzinfo;
  DaysPast : option Z;
  DaysFuture : option Z;
  CalendarAddress : string
}.

Definition getint (o : option Z) (fallback : Z) : Z :=
  match o with Some v => v | None => fallback end.

Module Window.

(** [now] stands for [datetime.now()], the local clock, in microseconds
    counted from 1970-01-01T00:00:00.  A [datetime] lies between
    0001-01-01T00:00:00 and 9999-12-31T23:59:59.999999. *)
Definition datetime_min : Z := -62135596800000000.

Definition datetime_max : Z := 253402300799999999.

(** a datetime, or the OverflowError that the arithmetic of [datetime]
    raises in its place *)
Inductive outcome : Type :=
| At (t : Z)
| OverflowError.

(** [timedelta(days=n)] in microseconds; a [timedelta] holds at most
    999999999 days either way *)
Definition timedelta_days (days : Z) : option Z :=
  if Z.abs days <=? 999999999 then Some (days * 86400000000) else None.

(** [dt + delta], for a [delta] in microseconds *)
Definition datetime_add (dt delta : Z) : outcome :=
  if (datetime_min <=? dt + delta) && (dt + delta <=? datetime_max)
  then At (dt + delta)
  else OverflowError.

Definition start_date (cfg : config) (now : Z) : outcome :=
  match timedelta_days (Z.abs (getint (DaysPast cfg) 7)) with
  | Some delta => datetime_add now (- delta)
  | None => OverflowError
  end.

Definition end_date (cfg : config) (now : Z) : outcome :=
  match timedelta_days (Z.abs (getint (DaysFuture cfg) 14)) with
  | Some delta => datetime_add now delta
  | None => OverflowError
  end.

End Window.

(* ------------------------------------------------------------------ *)
(** ** The source system's objects (pyexchange) *)

Module Exchange.

(** an attendee: [.name], [.email], [.response] *)
Record person := mk_person {
  name : option string;
  email : string;
  response : option string
}.

(** the organizer: [.name], [.email] *)
Record organizer_t := mk_organizer {
  organizer_name : option string;
  organizer_email : option string
}.

Record event := mk_event {
  id : string;
  subject : option string;
  location : option string;
  start : Datetime.datetime;
  end_ : Datetime.datetime;
  organizer : option organizer_t;
  attendees : list person
}.

End Exchange.

(* ------------------------------------------------------------------ *)
(** ** [transform_event] (lines 79-127) *)

(** a [str] or [None] as a JSON value *)
Definition str_or_none (o : option string) : json :=
  match o with Some s => JStr s | None => JNull end.

(** [RESPONSE_MAPPING.get(response, 'needsAction')] *)
Definition response_status (response : option string) : string :=
  match response with
  | Some r =>
      match Dict.get r RESPONSE_MAPPING with
      | Some v => v
      | None => "needsAction"
      end
  | None => "needsAction"
  end.

(** [k['email']], the sort key; every entry of the list carries the key *)
Definition email_key (k : list (string * json)) : string :=
  match Dict.get "email" k with
  | Some (JStr s) => s
  | _ => EmptyString
  end.

Definition valid_email (person : Exchange.person) : bool :=
  Re.re_match email_pattern (Exchange.email person).

Definition attendee_entry (person : Exchange.person) : list (string * json) :=
  [("displayName", str_or_none (Exchange.name person));
   ("email", JStr (Exchange.email person));
   ("responseStatus", JStr (response_status (Exchange.response person)))].

Definition calendar_entry (cfg : config) : list (string * json) :=
  [("email", JStr (CalendarAddress cfg));
   ("responseStatus", JStr "accepted")].

(** the list bound to [attendees] when line 97 is reached *)
Definition attendees_of (cfg : config) (event : Exchange.event)
  : list (list (string * json)) :=
  map attendee_entry (filter valid_email (Exchange.attendees event))
  ++ [calendar_entry cfg].

(** [(event.end - event.start).total_seconds() % (24 * 60 * 60) == 0] *)
Definition is_all_day (event : Exchange.event) : bool :=
  (Exchange.end_ event - Exchange.start event) mod (24 * 60 * 60) =? 0.

(** the dictionary bound to [event_body] when line 125 is reached *)
Definition body_before_hash (cfg : config) (event : Exchange.event)
  : list (string * json) :=
  let attendees := attendees_of cfg event in
  let event_body :=
    [("iCalUID", JStr (Exchange.id event));
     ("summary", str_or_none (Exchange.subject event));
     ("location", str_or_none (Exchange.location event));
     ("start", JDict [("dateTime", JStr (Datetime.isoformat (Exchange.start event)));
                      ("timeZone", JStr "UTC")]);
     ("end", JDict [("dateTime", JStr (Datetime.isoformat (Exchange.end_ event)));
                    ("timeZone", JStr "UTC")]);
     ("organizer",
       JDict [("displayName",
                match Exchange.organizer event with
                | Some o => str_or_none (Exchange.organizer_name o)
                | None => JNull
                end);
              ("email",
                match Exchange.organizer event with
                | Some o => str_or_none (Exchange.organizer_email o)
                | None => JNull
                end)]);
     ("attendees", JList (map JDict (sorted email_key attendees)));
     ("reminders", JDict [("useDefault", JBool true)])] in
  if is_all_day event then
    let tz := Timezone cfg in
    let event_body :=
      Dict.set "start"
        (JDict [("date", JStr (Datetime.date_isoformat
                                 (Datetime.local_date tz (Exchange.start event))))])
        event_body in
    Dict.set "end"
      (JDict [("date", JStr (Datetime.date_isoformat
                               (Datetime.local_date tz
                                  (Exchange.end_ event - Datetime.timedelta 0 1))))])
      event_body
  else event_body.

Definition transform_event (cfg : config) (event : Exchange.event)
  : list (string * json) :=
  let event_body := body_before_hash cfg event in
  Dict.set "description" (JStr (hash_event event_body)) event_body.

(* ------------------------------------------------------------------ *)
(** ** The destination system's objects and the calls sent to it *)

Module Google.

(** the fields of an event of the Calendar API that the program reads:
    [id] is always there, the other three may be missing *)
Record google_event := mk_google_event {
  id : string;
  iCalUID : option string;
  summary : option string;
  description : option string
}.

(** [events().update], [events().import_], [events().delete] *)
Inductive mutation : Type :=
| Update (eventId : string) (body : list (string * json))
| Import (body : list (string * json))
| Delete (eventId : string).

End Google.

(** [get_events_from_google_calendar] (line 138): the events by iCalUID;
    an event with no iCalUID, or an empty one, is left out *)
Definition get_events_from_google_calendar (items : list Google.google_event)
  : list (string * Google.google_event) :=
  fold_left
    (fun d e =>
       match Google.iCalUID e with
       | Some k => if String.eqb k EmptyString then d else Dict.set k e d
       | None => d
       end)
    items [].

(* ------------------------------------------------------------------ *)
(** ** [main] (lines 164-182): a log of the calls made, and how it ended *)

Inductive exn : Type :=
| KeyError (key : string).

Inductive result (A : Type) : Type :=
| Ok (a : A)
| Raise (e : exn).

Arguments Ok {A} a.
Arguments Raise {A} e.

Module Run.

Import Google.

(** a computation: the calls made so far, then a value or an exception *)
Definition M (A : Type) : Type := list mutation * result A.

Definition ret {A} (a : A) : M A := ([], Ok a).

Definition raise {A} (e : exn) : M A := ([], Raise e).

Definition bind {A B} (c : M A) (k : A -> M B) : M B :=
  match c with
  | (log, Ok a) => let (log', r) := k a in (log ++ log', r)
  | (log, Raise e) => (log, Raise e)
  end.

Definition execute (m : mutation) : M unit := ([m], Ok tt).

(** [d[k]] on a dictionary *)
Definition getitem {V} (d : list (string * V)) (k : string) : M V :=
  match Dict.get k d with
  | Some v => ret v
  | None => raise (KeyError k)
  end.

(** [e[k]] on a destination event whose field [k] may be missing *)
Definition getfield {V} (field : option V) (k : string) : M V :=
  match field with
  | Some v => ret v
  | None => raise (KeyError k)
  end.

End Run.

Notation "x <- c ;; k" := (Run.bind c (fun x => k))
  (at level 61, c at next level, right associativity).

Import Google.

(** [google_events.get(key)] for the value found under ['iCalUID'] *)
Definition lookup (key : json) (google_events : list (string * google_event))
  : option google_event :=
  match key with
  | JStr k => Dict.get k google_events
  | _ => None
  end.

(** [google_event.get('description', '')] *)
Definition stored_hash (google_event : google_event) : string :=
  match description google_event with
  | Some s => s
  | None => EmptyString
  end.

(** [a != b] with [b] a [str] *)
Definition differs (a : json) (b : string) : bool :=
  match a with
  | JStr s => negb (String.eqb s b)
  | _ => true
  end.

Definition pop (key : json) (google_events : list (string * google_event))
  : list (string * google_event) :=
  match key with
  | JStr k => Dict.pop k google_events
  | _ => google_events
  end.

(** one turn of the first loop (lines 166-176): what is left of
    [google_events] after it *)
Definition sync_event (cfg : config) (google_events : list (string * google_event))
    (event : Exchange.event) : Run.M (list (string * google_event)) :=
  let event_body := transform_event cfg event in
  uid <- Run.getitem event_body "iCalUID" ;;
  match lookup uid google_events with
  | Some google_event =>
      h <- Run.getitem event_body "description" ;;
      _ <- (if differs h (stored_hash google_event) then
              _ <- Run.execute (Update (id google_event) event_body) ;;
              _ <- Run.getitem event_body "summary" ;;
              Run.ret tt
            else Run.ret tt) ;;
      Run.ret (pop uid google_events)
  | None =>
      _ <- Run.getitem event_body "summary" ;;
      _ <- Run.execute (Import event_body) ;;
      Run.ret google_events
  end.

(** the first loop (lines 165-176) *)
Fixpoint sync_loop (cfg : config) (events : list Exchange.event)
    (google_events : list (string * google_event))
  : Run.M (list (string * google_event)) :=
  match events with
  | [] => Run.ret google_events
  | event :: rest =>
      google_events' <- sync_event cfg google_events event ;;
      sync_loop cfg rest google_events'
  end.

(** the second loop (lines 180-182), over [google_events.items()] *)
Fixpoint delete_loop (items : list (string * google_event)) : Run.M unit :=
  match items with
  | [] => Run.ret tt
  | (_, google_event) :: rest =>
      _ <- Run.getfield (summary google_event) "summary" ;;
      _ <- Run.execute (Delete (id google_event)) ;;
      delete_loop rest
  end.

Definition main (cfg : config) (exchange_events : list Exchange.event)
    (google_events : list (string * google_event)) : Run.M unit :=
  google_events' <- sync_loop cfg exchange_events google_events ;;
  delete_loop google_events'.

(** the calls of a run *)
Definition mutations {A} (r : Run.M A) : list mutation := fst r.

(* ------------------------------------------------------------------ *)
(** ** The destination calendar, seen through the mapping by identifier

    The program has no code for the destination: what follows is the
    reading of its three calls that the properties of two successive runs
    rest on.  An imported event is stored under its iCalUID with an id the
    destination chooses, unused so far; an update replaces what is stored
    under the given id and keeps the id; a delete removes the event of the
    given id. *)

Module Destination.

Definition body_str (body : list (string * json)) (k : string) : option string :=
  match Dict.get k body with
  | Some (JStr s) => Some s
  | _ => None
  end.

(** the destination event that holds [body] under the id [eventId] *)
Definition stored (eventId : string) (body : list (string * json)) : google_event :=
  mk_google_event eventId (body_str body "iCalUID") (body_str body "summary")
                  (body_str body "description").

Definition ids (m : list (string * google_event)) : list string :=
  map (fun kv => id (snd kv)) m.

Definition update (eventId : string) (body : list (string * json))
    (m : list (string * google_event)) : list (string * google_event) :=
  map (fun kv => if String.eqb (id (snd kv)) eventId
                 then (fst kv, stored eventId body) else kv) m.

Definition delete (eventId : string) (m : list (string * google_event))
  : list (string * google_event) :=
  filter (fun kv => negb (String.eqb (id (snd kv)) eventId)) m.

Inductive step : list (string * google_event) -> mutation ->
                 list (string * google_event) -> Prop :=
| step_import m body uid new_id :
    body_str body "iCalUID" = Some uid ->
    ~ In new_id (ids m) ->
    step m (Import body) (Dict.set uid (stored new_id body) m)
| step_update m eventId body :
    step m (Update eventId body) (update eventId body m)
| step_delete m eventId :
    step m (Delete eventId) (delete eventId m).

(** the calls of a log, applied in the order they were made *)
Inductive steps : list (string * google_event) -> list mutation ->
                  list (string * google_event) -> Prop :=
| steps_nil m : steps m [] m
| steps_cons m m' m'' c log :
    step m c m' -> steps m' log m'' -> steps m (c :: log) m''.

End Destination.

(* ------------------------------------------------------------------ *)
(** ** Readings of the normalised body used to state the properties *)

(** the entries of the list under ['attendees'] *)
Definition body_attendees (event_body : list (string * json)) : list json :=
  match Dict.get "attendees" event_body with
  | Some (JList l) => l
  | _ => []
  end.

(** the email of one entry of that list *)
Definition entry_email (j : json) : string :=
  match j with
  | JDict d => email_key d
  | _ => EmptyString
  end.

(** the content hash of a normalised body: what it holds under ['description'] *)
Definition content_hash (event_body : list (string * json)) : string :=
  match Dict.get "description" event_body with
  | Some (JStr h) => h
  | _ => EmptyString
  end.

(** the entries of a mapping that no source event matches *)
Definition unmatched (events : list Exchange.event)
    (m : list (string * google_event)) : list (string * google_event) :=
  filter (fun kv => negb (existsb (String.eqb (fst kv)) (map Exchange.id events))) m.

(** how many times a log asks for the deletion of the event of id [i] *)
Definition deletions (i : string) (log : list mutation) : nat :=
  List.length
    (filter (fun c => match c with Delete j => String.eqb i j | _ => false end) log).

(** the window as the specification words it: for whatever day counts are
    configured, from now less |DaysPast| days to now plus |DaysFuture| days *)
Definition window_as_specified (cfg : config) (now : Z) : Prop :=
  let past := match DaysPast cfg with Some d => d | None => 7 end in
  let future := match DaysFuture cfg with Some d => d | None => 14 end in
  Window.start_date cfg now = Window.At (now - Z.abs past * 86400000000)
  /\ Window.end_date cfg now = Window.At (now + Z.abs future * 86400000000).

(** the translation of the responses as the specification words it *)
Definition responses_as_specified : Prop :=
  response_status (Some "unknown") = "needsAction"
  /\ response_status (Some "accepted") = "accepted"
  /\ response_status (Some "tentative") = "tentative"
  /\ response_status (Some "declined") = "declined".

(** the attendees as the specification words them: in ascending order of
    email, no email twice, the calendar's own address among them *)
Definition attendees_as_specified (cfg : config) (event : Exchange.event) : Prop :=
  let l := body_attendees (transform_event cfg event) in
  Sorted str_le (map entry_email l)
  /\ NoDup (map entry_email l)
  /\ In (JDict (calendar_entry cfg)) l.

(** a string of one or more characters, none of them an at sign *)
Definition at_free (s : string) : Prop :=
  s <> EmptyString /\ Forall (fun c => c <> "@"%char) (list_ascii_of_string s).

(** the shape [local@domain.tld] of the specification, for a whole string *)
Definition email_shape (s : string) : Prop :=
  exists l d t,
    s = (l ++ "@" ++ d ++ "." ++ t)%string /\ at_free l /\ at_free d /\ at_free t.



(* ------------------------------------------------------------------ *)
(** ** Readings of a run used to state further properties *)

(** the entries of a list up to the first whose event has no summary *)
Fixpoint titled_prefix (items : list (string * google_event))
  : list (string * google_event) :=
  match items with
  | [] => []
  | kv :: rest =>
      match summary (snd kv) with
      | Some _ => kv :: titled_prefix rest
      | None => []
      end
  end.

(** the delete call for an entry of the mapping *)
Definition delete_call (kv : string * google_event) : mutation :=
  Delete (id (snd kv)).

(* ------------------------------------------------------------------ *)
(** ** Readings of the serialisation used to state further properties *)

(** a value with the entries of each of its dictionaries in ascending order
    of key *)
Fixpoint canon (j : json) : json :=
  match j with
  | JList l => JList (map canon l)
  | JDict d => JDict (sorted fst (map (fun kv => (fst kv, canon (snd kv))) d))
  | _ => j
  end.

(** what follows the first element of a sequence: the further elements,
    each after a comma and a blank, then the closing text *)
Fixpoint seq_rest (close : string) (xs : list string) : string :=
  match xs with
  | [] => close
  | x :: rest => (", " ++ x ++ seq_rest close rest)%string
  end.

Definition seq_text (close : string) (xs : list string) : string :=
  match xs with
  | [] => close
  | x :: rest => (x ++ seq_rest close rest)%string
  end.

(** the text of a value, its dictionaries written in the order they have *)
Fixpoint render (j : json) : string :=
  match j with
  | JNull => "null"
  | JBool b => if b then "true" else "false"
  | JStr s => Json.encode_str s
  | JList l => String "[" (seq_text "]" (map render l))
  | JDict d =>
      String "{"
        (seq_text "}" (map (fun kv => Json.item (fst kv, render (snd kv))) d))
  end.

Fixpoint is_prefix (a b : string) : bool :=
  match a, b with
  | EmptyString, _ => true
  | String x a', String y b' => Ascii.eqb x y && is_prefix a' b'
  | String _ _, EmptyString => false
  end.

(** the 256 characters *)
Definition all_ascii : list ascii := map ascii_of_nat (seq 0 256).

(** no escape of a character starts the escape of another *)
Definition escapes_prefix_free : bool :=
  forallb
    (fun c1 =>
       forallb
         (fun c2 =>
            implb (is_prefix (Json.escape_char c1) (Json.escape_char c2))
                  (Ascii.eqb c1 c2))
         all_ascii)
    all_ascii.

(** no escape of a character starts with a double quote *)
Definition escapes_quote_free : bool :=
  forallb
    (fun c =>
       match Json.escape_char c with
       | String x _ => negb (Ascii.eqb x Json.dquote)
       | EmptyString => false
       end)
    all_ascii.

(** induction on a value, with the property at hand for the elements of a
    list and for the values of a dictionary *)
Section JsonInduction.
Variable P : json -> Prop.
Hypothesis Pnull : P JNull.
Hypothesis Pbool : forall b, P (JBool b).
Hypothesis Pstr : forall s, P (JStr s).
Hypothesis Plist : forall l, Forall P l -> P (JList l).
Hypothesis Pdict : forall d, Forall (fun kv => P (snd kv)) d -> P (JDict d).

Fixpoint json_induction (j : json) : P j :=
  match j with
  | JNull => Pnull
  | JBool b => Pbool b
  | JStr s => Pstr s
  | JList l =>
      Plist l
        ((fix all (l : list json) : Forall P l :=
            match l with
            | [] => Forall_nil P
            | x :: rest => Forall_cons x (json_induction x) (all rest)
            end) l)
  | JDict d =>
      Pdict d
        ((fix all (d : list (string * json)) : Forall (fun kv => P (snd kv)) d :=
            match d with
            | [] => Forall_nil _
            | kv :: rest =>
                @Forall_cons _ (fun kv => P (snd kv)) kv rest
                  (json_induction (snd kv)) (all rest)
            end) d)
  end.

End JsonInduction.

(* ------------------------------------------------------------------ *)
(** ** [init_google_calendar_service] (lines 54-71)

    The credentials, the service and the two libraries behind them are
    parameters; a call returns what it asked of the outside, the service it
    hands back, and the value of the global [google_service] after it. *)

Module Service.

Inductive action (credentials : Type) : Type :=
| StoreGet                   (* store.get() *)
| FlowFromClientSecrets      (* oauth2client.client.flow_from_clientsecrets(...) *)
| RunFlow                    (* oauth2client.tools.run_flow(flow, store) *)
| Print                      (* print('Storing credentials to', ...) *)
| Build (c : credentials).   (* discovery.build(..., http=c.authorize(...)) *)

Arguments StoreGet {credentials}.
Arguments FlowFromClientSecrets {credentials}.
Arguments RunFlow {credentials}.
Arguments Print {credentials}.
Arguments Build {credentials} c.

Section Init.
Variables credentials service : Type.

(** [credentials.invalid] *)
Variable invalid : credentials -> bool.

(** the service that [discovery.build] makes of authorised credentials *)
Variable build : credentials -> service.

(** the outside at the time of a call: what the credential store holds, and
    the credentials the consent flow would hand over *)
Record world := mk_world {
  stored : option credentials;
  consent : credentials
}.

Definition init_google_calendar_service (w : world)
    (google_service : option service)
  : list (action credentials) * service * option service :=
  match google_service with
  | Some s => ([], s, Some s)
  | None =>
      let (asked, c) :=
        match stored w with
        | Some c =>
            if invalid c then ([StoreGet; FlowFromClientSecrets; RunFlow; Print], consent w)
            else ([StoreGet], c)
        | None => ([StoreGet; FlowFromClientSecrets; RunFlow; Print], consent w)
        end in
      (asked ++ [Build c], build c, Some (build c))
  end.

End Init.

Arguments init_google_calendar_service {credentials service} invalid build w
  google_service.
Arguments stored {credentials} w.
Arguments consent {credentials} w.

End Service.

(* ================================================================== *)
(** * Properties *)

(* ------------------------------------------------------------------ *)
(** ** The digest and the normaliser on known values *)

Example sha1_abc :
  Sha1.hexdigest "abc" = "a9993e364706816aba3e25717850c26c9cd0d89d".
Proof. vm_compute. reflexivity. Qed.

Example sha1_empty :
  Sha1.hexdigest "" = "da39a3ee5e6b4b0d3255bfef95601890afd80709".
Proof. vm_compute. reflexivity. Qed.

Example sha1_two_blocks :
  Sha1.hexdigest "abcdbcdecdefdefgefghfghighijhijkijkljklmklmnlmnomnopnopq"
  = "84983e441c3bd26ebaae4aa1f95129e5e54670f1".
Proof. vm_compute. reflexivity. Qed.

(** a two-day event with three attendees, one of them without an address *)
Example transform_event_known_digest :
  let cfg := mk_config Datetime.utc None None "me@gmail.com" in
  let ev :=
    Exchange.mk_event "A" (Some "Meeting") None 1704067200 1704240000 None
      [Exchange.mk_person (Some "Bob") "bob@x.org" (Some "Accepted");
       Exchange.mk_person None "not-an-email" None;
       Exchange.mk_person (Some "Al") "al@x.org" (Some "Tentative")] in
  map entry_email (body_attendees (transform_event cfg ev))
  = ["al@x.org"; "bob@x.org"; "me@gmail.com"]
  /\ content_hash (transform_event cfg ev)
     = "3f811ad1557f90bb5e1efcf0488d38facf24041b".
Proof. vm_compute. split; reflexivity. Qed.

(* ------------------------------------------------------------------ *)
(** ** The digest is forty characters long *)

Lemma hexdigest_length (data : string) :
  String.length (Sha1.hexdigest data) = 40%nat.
Proof. reflexivity. Qed.

Lemma hash_event_length (event_body : list (string * json)) :
  String.length (hash_event event_body) = 40%nat.
Proof. apply hexdigest_length. Qed.

Lemma hash_event_nonempty (event_body : list (string * json)) :
  hash_event event_body <> EmptyString.
Proof.
  intros H. pose proof (hash_event_length event_body) as L.
  rewrite H in L. discriminate L.
Qed.

(* ------------------------------------------------------------------ *)
(** ** The keys of a normalised body *)

Section BodyKeys.
Variables (cfg : config) (ev : Exchange.event).

Lemma body_before_hash_no_description :
  Dict.get "description" (body_before_hash cfg ev) = None.
Proof. unfold body_before_hash. destruct (is_all_day ev); reflexivity. Qed.

Lemma transform_event_iCalUID :
  Dict.get "iCalUID" (transform_event cfg ev) = Some (JStr (Exchange.id ev)).
Proof.
  unfold transform_event, body_before_hash. destruct (is_all_day ev); reflexivity.
Qed.

Lemma transform_event_summary :
  Dict.get "summary" (transform_event cfg ev)
  = Some (str_or_none (Exchange.subject ev)).
Proof.
  unfold transform_event, body_before_hash. destruct (is_all_day ev); reflexivity.
Qed.

Lemma transform_event_description :
  Dict.get "description" (transform_event cfg ev)
  = Some (JStr (hash_event (body_before_hash cfg ev))).
Proof.
  unfold transform_event.
  generalize (hash_event (body_before_hash cfg ev)) as h.
  unfold body_before_hash. destruct (is_all_day ev); reflexivity.
Qed.

Lemma transform_event_pop_description :
  Dict.pop "description" (transform_event cfg ev) = body_before_hash cfg ev.
Proof.
  unfold transform_event.
  generalize (hash_event (body_before_hash cfg ev)) as h.
  unfold body_before_hash. destruct (is_all_day ev); reflexivity.
Qed.

Lemma transform_event_attendees :
  body_attendees (transform_event cfg ev)
  = map JDict (sorted email_key (attendees_of cfg ev)).
Proof.
  unfold transform_event.
  generalize (hash_event (body_before_hash cfg ev)) as h.
  unfold body_before_hash. destruct (is_all_day ev); reflexivity.
Qed.

Lemma content_hash_transform_event :
  content_hash (transform_event cfg ev) = hash_event (body_before_hash cfg ev).
Proof. unfold content_hash. now rewrite transform_event_description. Qed.

End BodyKeys.

(* ------------------------------------------------------------------ *)
(** ** Lists with pairwise distinct images, filters *)

Lemma NoDup_map_inj_in {A B : Type} (f : A -> B) (l : list A) (x y : A) :
  NoDup (map f l) -> In x l -> In y l -> f x = f y -> x = y.
Proof.
  induction l as [|a l IH]; simpl; [contradiction|].
  intros N Hx Hy E. inversion N as [|? ? Ha Nl]; subst.
  destruct Hx as [->|Hx], Hy as [->|Hy]; trivial.
  - exfalso. apply Ha. rewrite E. now apply in_map.
  - exfalso. apply Ha. rewrite <- E. now apply in_map.
  - now apply IH.
Qed.

Lemma NoDup_map_filter {A B : Type} (f : A -> B) (g : A -> bool) (l : list A) :
  NoDup (map f l) -> NoDup (map f (filter g l)).
Proof.
  induction l as [|a l IH]; simpl; [trivial|].
  intros N. inversion N as [|? ? Ha Nl]; subst.
  destruct (g a); [|now apply IH].
  simpl. constructor; [|now apply IH].
  intros H. apply Ha. apply in_map_iff in H as (b & E & H).
  apply filter_In in H as [H _]. apply in_map_iff. now exists b.
Qed.

Lemma filter_comm {A : Type} (f g : A -> bool) (l : list A) :
  filter f (filter g l) = filter g (filter f l).
Proof.
  induction l as [|a l IH]; simpl; [reflexivity|].
  destruct (f a) eqn:F, (g a) eqn:G; simpl; rewrite ?F, ?G, IH; reflexivity.
Qed.

Lemma filter_all {A : Type} (f : A -> bool) (l : list A) :
  (forall x, In x l -> f x = true) -> filter f l = l.
Proof.
  intros H. apply forallb_filter_id, forallb_forall. exact H.
Qed.

(* ------------------------------------------------------------------ *)
(** ** [sorted]: ordered by the key, and a permutation of its argument *)

Section SortedFacts.
Context {A : Type} (key : A -> string).

Lemma insert_by_perm (x : A) (l : list A) :
  Permutation (x :: l) (insert_by key x l).
Proof.
  induction l as [|y l IH]; simpl.
  - apply Permutation_refl.
  - destruct (String.leb (key x) (key y)).
    + apply Permutation_refl.
    + eapply perm_trans; [apply perm_swap|]. now apply perm_skip.
Qed.

Lemma sorted_perm (l : list A) : Permutation l (sorted key l).
Proof.
  induction l as [|x l IH]; simpl.
  - constructor.
  - eapply perm_trans; [|apply insert_by_perm]. now apply perm_skip.
Qed.

Lemma insert_by_HdRel (a x : A) (l : list A) :
  le_by key a x -> HdRel (le_by key) a l -> HdRel (le_by key) a (insert_by key x l).
Proof.
  intros Hax Hl. destruct l as [|y l]; simpl.
  - now constructor.
  - destruct (String.leb (key x) (key y)); constructor; trivial.
    now inversion Hl.
Qed.

Lemma insert_by_Sorted (x : A) (l : list A) :
  Sorted (le_by key) l -> Sorted (le_by key) (insert_by key x l).
Proof.
  induction 1 as [|y l Hs IH Hd]; simpl.
  - repeat constructor.
  - destruct (String.leb (key x) (key y)) eqn:E.
    + constructor; [now constructor|]. now constructor.
    + constructor; [exact IH|].
      apply insert_by_HdRel; [|exact Hd].
      destruct (String.leb_total (key x) (key y)) as [H|H]; [congruence|exact H].
Qed.

Lemma sorted_Sorted (l : list A) : Sorted (le_by key) (sorted key l).
Proof.
  induction l as [|x l IH]; simpl; [constructor|now apply insert_by_Sorted].
Qed.

Lemma Sorted_map_key (l : list A) :
  Sorted (le_by key) l -> Sorted str_le (map key l).
Proof.
  induction 1 as [|x l Hs IH Hd]; simpl; constructor; trivial.
  destruct Hd; simpl; constructor; trivial.
Qed.

End SortedFacts.

(** *** The order of strings is a total order *)

Lemma ascii_compare_refl (c : ascii) : Ascii.compare c c = Eq.
Proof. unfold Ascii.compare. apply N.compare_refl. Qed.

Lemma ascii_compare_lt_trans (a b c : ascii) :
  Ascii.compare a b = Lt -> Ascii.compare b c = Lt -> Ascii.compare a c = Lt.
Proof.
  unfold Ascii.compare. rewrite !N.compare_lt_iff. apply N.lt_trans.
Qed.

Lemma string_compare_trans (a b c : string) :
  String.compare a b <> Gt -> String.compare b c <> Gt -> String.compare a c <> Gt.
Proof.
  revert b c. induction a as [|x a IH]; intros [|y b] [|z c]; simpl;
    try congruence.
  destruct (Ascii.compare x y) eqn:Exy; [| |congruence].
  - apply Ascii.compare_eq_iff in Exy. subst y.
    destruct (Ascii.compare x z); [apply IH|congruence|congruence].
  - destruct (Ascii.compare y z) eqn:Eyz; [| |congruence].
    + apply Ascii.compare_eq_iff in Eyz. subst z. rewrite Exy. congruence.
    + rewrite (ascii_compare_lt_trans x y z Exy Eyz). congruence.
Qed.

Lemma str_le_trans (a b c : string) : str_le a b -> str_le b c -> str_le a c.
Proof.
  unfold str_le, String.leb. intros H1 H2.
  pose proof (string_compare_trans a b c) as T.
  destruct (String.compare a b); try discriminate;
    destruct (String.compare b c); try discriminate;
    destruct (String.compare a c); trivial; exfalso; apply T; congruence.
Qed.

Lemma str_le_antisym (a b : string) : str_le a b -> str_le b a -> a = b.
Proof. apply String.leb_antisym. Qed.

(** *** Two orderings of the same entries, with distinct keys, coincide *)

Section SortedUnique.
Context {A : Type} (key : A -> string).

Lemma Sorted_le_by_head (x : A) (l : list A) :
  Sorted (le_by key) (x :: l) -> forall y, In y l -> le_by key x y.
Proof.
  intros S. apply Sorted_StronglySorted in S.
  - apply StronglySorted_inv in S as [_ F]. now apply Forall_forall.
  - intros a b c. apply str_le_trans.
Qed.

Lemma Sorted_perm_unique (l1 l2 : list A) :
  Sorted (le_by key) l1 -> Sorted (le_by key) l2 ->
  Permutation l1 l2 -> NoDup (map key l1) -> l1 = l2.
Proof.
  revert l2. induction l1 as [|x l1 IH]; intros l2 S1 S2 P N.
  - apply Permutation_nil in P. now subst.
  - destruct l2 as [|y l2].
    + apply Permutation_sym, Permutation_nil in P. discriminate P.
    + assert (x = y) as <-.
      { assert (Hy : In y (x :: l1))
          by (apply (Permutation_in y (Permutation_sym P)); now left).
        assert (Hx : In x (y :: l2)) by (apply (Permutation_in x P); now left).
        destruct Hy as [E|Hy]; [exact E|]. destruct Hx as [E|Hx]; [now symmetry|].
        apply (NoDup_map_inj_in key (x :: l1)); trivial; [now left|now right|].
        apply str_le_antisym.
        - now apply (Sorted_le_by_head x l1).
        - now apply (Sorted_le_by_head y l2). }
      f_equal. apply IH.
      * now inversion S1.
      * now inversion S2.
      * now apply Permutation_cons_inv in P.
      * now inversion N.
Qed.

Lemma sorted_perm_eq (l1 l2 : list A) :
  Permutation l1 l2 -> NoDup (map key l1) -> sorted key l1 = sorted key l2.
Proof.
  intros P N. apply Sorted_perm_unique; try apply sorted_Sorted.
  - eapply perm_trans; [apply Permutation_sym, sorted_perm|].
    eapply perm_trans; [exact P|apply sorted_perm].
  - apply (Permutation_NoDup (l := map key l1)); [|exact N].
    apply Permutation_map, sorted_perm.
Qed.

End SortedUnique.

(* ------------------------------------------------------------------ *)
(** ** The matchers decide the denotation of a pattern *)

Lemma string_app_nil_r (s : string) : (s ++ EmptyString)%string = s.
Proof. induction s as [|c s IH]; simpl; [reflexivity|now rewrite IH]. Qed.

Lemma full_match_iff (s : string) (p : list Re.piece) :
  Re.full_match s p = true <-> Re.matches p s.
Proof.
  revert p. induction s as [|c s IH]; intros [|[a|a] p]; simpl; split; intros H;
    try discriminate; try (now constructor); try (now inversion H).
  - apply andb_true_iff in H as [Ha Hm]. constructor; trivial. now apply IH.
  - inversion H; subst. apply andb_true_iff. split; trivial. now apply IH.
  - apply andb_true_iff in H as [Ha Hm]. apply orb_true_iff in Hm as [Hm|Hm].
    + apply Re.matches_plus_more; trivial. now apply IH.
    + apply Re.matches_plus_last; trivial. now apply IH.
  - apply andb_true_iff. inversion H; subst; (split; [assumption|]);
      apply orb_true_iff; [left|right]; now apply IH.
Qed.

Lemma prefix_match_iff (s : string) (p : list Re.piece) :
  Re.prefix_match s p = true
  <-> exists u v, s = (u ++ v)%string /\ Re.matches p u.
Proof.
  revert p. induction s as [|c s IH]; intros [|[a|a] p]; simpl; split; intros H;
    try discriminate.
  - exists EmptyString, EmptyString. split; [reflexivity|constructor].
  - reflexivity.
  - destruct H as (u & v & E & M). inversion M; subst; discriminate.
  - destruct H as (u & v & E & M). inversion M; subst; discriminate.
  - exists EmptyString, (String c s). split; [reflexivity|constructor].
  - reflexivity.
  - apply andb_true_iff in H as [Ha Hm]. apply IH in Hm as (u & v & E & M).
    exists (String c u), v. subst. split; [reflexivity|now constructor].
  - destruct H as (u & v & E & M). inversion M; subst. injection E as -> ->.
    apply andb_true_iff. split; trivial. apply IH. now exists s0, v.
  - apply andb_true_iff in H as [Ha Hm].
    apply orb_true_iff in Hm as [Hm|Hm]; apply IH in Hm as (u & v & E & M);
      exists (String c u), v; subst; (split; [reflexivity|]).
    + now apply Re.matches_plus_more.
    + now apply Re.matches_plus_last.
  - destruct H as (u & v & E & M).
    inversion M; subst; injection E as -> ->; apply andb_true_iff;
      (split; [assumption|]); apply orb_true_iff; [left|right]; apply IH;
      now exists s0, v.
Qed.

(* ------------------------------------------------------------------ *)
(** ** The email pattern denotes the shape [local@domain.tld] *)

Lemma accepts_not (c x : ascii) : Re.accepts (Re.Not c) x = true <-> x <> c.
Proof.
  simpl. rewrite negb_true_iff. apply Ascii.eqb_neq.
Qed.

Lemma matches_nil_iff (s : string) : Re.matches [] s <-> s = EmptyString.
Proof.
  split; intros H; [now inversion H|subst; constructor].
Qed.

Lemma matches_lit_iff (c : ascii) (p : list Re.piece) (s : string) :
  Re.matches (Re.One (Re.Lit c) :: p) s
  <-> exists v, s = String c v /\ Re.matches p v.
Proof.
  split.
  - intros H. inversion H; subst. simpl in *.
    match goal with E : Ascii.eqb _ _ = true |- _ => apply Ascii.eqb_eq in E; subst end.
    now eexists.
  - intros (v & -> & M). constructor; [apply Ascii.eqb_refl|exact M].
Qed.

Lemma matches_run_iff (c : ascii) (p : list Re.piece) (s : string) :
  Re.matches (Re.Plus (Re.Not c) :: p) s
  <-> exists u v,
        s = (u ++ v)%string /\ u <> EmptyString
        /\ Forall (fun x => x <> c) (list_ascii_of_string u) /\ Re.matches p v.
Proof.
  split.
  - intros H. remember (Re.Plus (Re.Not c) :: p) as q eqn:Q.
    induction H as [|a p' x s Ha M IH|a p' x s Ha M IH|a p' x s Ha M IH];
      try discriminate; injection Q as -> ->; apply accepts_not in Ha.
    + destruct (IH eq_refl) as (u & v & -> & _ & F & Mv).
      exists (String x u), v. repeat split; trivial; [discriminate|now constructor].
    + exists (String x EmptyString), s.
      repeat split; trivial; [discriminate|]. simpl. now repeat constructor.
  - intros (u & v & -> & Hne & F & M).
    induction u as [|x u IH]; [congruence|].
    simpl in F. inversion F as [|? ? Hx F']; subst.
    apply accepts_not in Hx. destruct u as [|y u].
    + simpl. now apply Re.matches_plus_last.
    + apply Re.matches_plus_more; trivial. apply IH; [discriminate|exact F'].
Qed.

Lemma matches_email_pattern_iff (s : string) :
  Re.matches email_pattern s <-> email_shape s.
Proof.
  unfold email_pattern, email_shape, at_free. split.
  - intros H.
    apply matches_run_iff in H as (l & r1 & -> & Hl & Fl & H).
    apply matches_lit_iff in H as (r2 & -> & H).
    apply matches_run_iff in H as (d & r3 & -> & Hd & Fd & H).
    apply matches_lit_iff in H as (r4 & -> & H).
    apply matches_run_iff in H as (t & r5 & -> & Ht & Ft & H).
    apply matches_nil_iff in H as ->.
    exists l, d, t. rewrite string_app_nil_r. now repeat split.
  - intros (l & d & t & -> & (Hl & Fl) & (Hd & Fd) & (Ht & Ft)).
    apply matches_run_iff. exists l, ("@" ++ d ++ "." ++ t)%string.
    repeat split; trivial.
    apply matches_lit_iff. exists (d ++ "." ++ t)%string. split; [reflexivity|].
    apply matches_run_iff. exists d, ("." ++ t)%string. repeat split; trivial.
    apply matches_lit_iff. exists t. split; [reflexivity|].
    apply matches_run_iff. exists t, EmptyString.
    rewrite string_app_nil_r. repeat split; trivial. constructor.
Qed.

(** [re.match] accepts a string when one of its prefixes has the shape *)
Lemma re_match_email_iff (s : string) :
  Re.re_match email_pattern s = true
  <-> exists u v, s = (u ++ v)%string /\ email_shape u.
Proof.
  unfold Re.re_match. rewrite prefix_match_iff.
  split; intros (u & v & E & H); exists u, v; split; trivial;
    now apply matches_email_pattern_iff.
Qed.

Lemma email_shape_full_match (s : string) :
  email_shape s <-> Re.full_match s email_pattern = true.
Proof. rewrite full_match_iff. symmetry. apply matches_email_pattern_iff. Qed.

(* ------------------------------------------------------------------ *)
(** ** Which attendees reach the normalised body *)

Lemma In_sorted {A : Type} (key : A -> string) (x : A) (l : list A) :
  In x (sorted key l) <-> In x l.
Proof.
  split; apply Permutation_in; [apply Permutation_sym|]; apply sorted_perm.
Qed.

Lemma In_body_attendees (cfg : config) (ev : Exchange.event)
    (d : list (string * json)) :
  In (JDict d) (body_attendees (transform_event cfg ev))
  <-> In d (attendees_of cfg ev).
Proof.
  rewrite transform_event_attendees, in_map_iff. split.
  - intros (d' & E & H). injection E as ->. now apply In_sorted in H.
  - intros H. exists d. split; [reflexivity|now apply In_sorted].
Qed.

Lemma attendee_entry_included (cfg : config) (ev : Exchange.event)
    (person : Exchange.person) :
  In person (Exchange.attendees ev) ->
  (In (JDict (attendee_entry person)) (body_attendees (transform_event cfg ev))
   <-> Re.re_match email_pattern (Exchange.email person) = true).
Proof.
  intros Hin. rewrite In_body_attendees. unfold attendees_of.
  rewrite in_app_iff, in_map_iff. split.
  - intros [(q & E & Hq)|[E|[]]].
    + apply filter_In in Hq as [_ Hv]. unfold valid_email in Hv.
      unfold attendee_entry in E. injection E as _ E _. now rewrite <- E.
    + discriminate E.
  - intros Hv. left. exists person. split; [reflexivity|].
    apply filter_In. now split.
Qed.

(** X2: a source attendee reaches the normalised body exactly when its email
    starts with an address of the shape [local@domain.tld]: the pattern is
    anchored at the start of the email only, and whatever follows the
    address is not looked at. *)
Theorem attendee_kept_iff_prefix_has_shape (cfg : config) (ev : Exchange.event)
    (person : Exchange.person) :
  In person (Exchange.attendees ev) ->
  (In (JDict (attendee_entry person)) (body_attendees (transform_event cfg ev))
   <-> exists u v, Exchange.email person = (u ++ v)%string /\ email_shape u).
Proof.
  intros Hin. rewrite <- re_match_email_iff. now apply attendee_entry_included.
Qed.

Lemma attendee_kept_iff_prefix_has_shape_witness :
  let cfg := mk_config Datetime.utc None None "me@example.com" in
  let person := Exchange.mk_person (Some "Bob") "a@b.co" (Some "Declined") in
  let ev := Exchange.mk_event "A" (Some "Lunch") None 0 3600 None [person] in
  In (JDict (attendee_entry person)) (body_attendees (transform_event cfg ev))
  <-> exists u v, Exchange.email person = (u ++ v)%string /\ email_shape u.
Proof.
  exact (attendee_kept_iff_prefix_has_shape
           (mk_config Datetime.utc None None "me@example.com")
           (Exchange.mk_event "A" (Some "Lunch") None 0 3600 None
              [Exchange.mk_person (Some "Bob") "a@b.co" (Some "Declined")])
           (Exchange.mk_person (Some "Bob") "a@b.co" (Some "Declined"))
           (or_introl eq_refl)).
Defined.

(* ------------------------------------------------------------------ *)
(** ** Attendees of the normalised body *)

Lemma email_key_attendee_entry (person : Exchange.person) :
  email_key (attendee_entry person) = Exchange.email person.
Proof. reflexivity. Qed.

Lemma body_attendee_emails (cfg : config) (ev : Exchange.event) :
  map entry_email (body_attendees (transform_event cfg ev))
  = map email_key (sorted email_key (attendees_of cfg ev)).
Proof.
  rewrite transform_event_attendees, map_map. reflexivity.
Qed.

Lemma attendees_of_emails (cfg : config) (ev : Exchange.event) :
  map email_key (attendees_of cfg ev)
  = map Exchange.email (filter valid_email (Exchange.attendees ev))
    ++ [CalendarAddress cfg].
Proof.
  unfold attendees_of. rewrite map_app, map_map. reflexivity.
Qed.

(** C6, as amended: in every normalised body the attendees are in ascending
    order of email and the destination calendar's own address is among them
    with responseStatus accepted; nothing is deduplicated: the emails of the
    list are those of the source attendees that pass the filter, each as
    often as it occurs there, and the calendar's address once more. *)
Theorem attendees_sorted_with_calendar_address (cfg : config) (ev : Exchange.event) :
  let l := body_attendees (transform_event cfg ev) in
  Sorted str_le (map entry_email l)
  /\ In (JDict [("email", JStr (CalendarAddress cfg));
                ("responseStatus", JStr "accepted")]) l
  /\ Permutation (map entry_email l)
       (map Exchange.email (filter valid_email (Exchange.attendees ev))
        ++ [CalendarAddress cfg]).
Proof.
  cbv zeta. rewrite body_attendee_emails. repeat split.
  - apply Sorted_map_key, sorted_Sorted.
  - apply (In_body_attendees cfg ev (calendar_entry cfg)).
    unfold attendees_of. apply in_or_app. right. now left.
  - rewrite <- attendees_of_emails. apply Permutation_map, Permutation_sym, sorted_perm.
Qed.

(** C6, as stated, fails when the calendar's own address is also an attendee
    of the source event: its email is then twice in the list. *)
Lemma calendar_address_listed_twice :
  let cfg := mk_config Datetime.utc None None "me@example.com" in
  let ev := Exchange.mk_event "A" (Some "Lunch") None 0 3600 None
              [Exchange.mk_person (Some "Me") "me@example.com" (Some "Accepted")] in
  map entry_email (body_attendees (transform_event cfg ev))
  = ["me@example.com"; "me@example.com"]
  /\ ~ attendees_as_specified cfg ev.
Proof.
  cbv zeta. split; [reflexivity|].
  intros (_ & N & _). rewrite body_attendee_emails in N.
  vm_compute in N. inversion N as [|x l Hx _]; subst. apply Hx. now left.
Qed.

(** C7: an attendee whose email is a well-shaped address followed by more
    text reaches the normalised body, although the email as a whole does not
    have the shape [local@domain.tld]; the email not-an-email is rejected
    and a@b.co is accepted. *)
Theorem trailing_text_after_address_is_kept :
  let person := Exchange.mk_person (Some "Eve") "a@b.co@x" (Some "Accepted") in
  let ev := Exchange.mk_event "A" (Some "Lunch") None 0 3600 None [person] in
  let cfg := mk_config Datetime.utc None None "me@example.com" in
  ~ email_shape (Exchange.email person)
  /\ Re.re_match email_pattern (Exchange.email person) = true
  /\ In (JDict (attendee_entry person)) (body_attendees (transform_event cfg ev))
  /\ Re.re_match email_pattern "not-an-email" = false
  /\ Re.re_match email_pattern "a@b.co" = true.
Proof.
  cbv zeta. repeat split.
  - intros H. apply email_shape_full_match in H. discriminate H.
  - apply attendee_entry_included; [now left|reflexivity].
Qed.

(** C8, as amended: the response of an attendee that reaches the body is
    translated, by exact match, by the table Unknown -> needsAction,
    Accepted -> accepted, TentativelyAccepted -> tentative,
    Declined -> declined; every other response, and a missing one, gives
    needsAction. *)
Theorem response_status_mapping :
  response_status (Some "Unknown") = "needsAction"
  /\ response_status (Some "Accepted") = "accepted"
  /\ response_status (Some "TentativelyAccepted") = "tentative"
  /\ response_status (Some "Declined") = "declined"
  /\ response_status None = "needsAction"
  /\ (forall r,
        ~ In r ["Unknown"; "Accepted"; "TentativelyAccepted"; "Declined"] ->
        response_status (Some r) = "needsAction")
  /\ (forall cfg ev person,
        In person (Exchange.attendees ev) ->
        Re.re_match email_pattern (Exchange.email person) = true ->
        In (JDict [("displayName", str_or_none (Exchange.name person));
                   ("email", JStr (Exchange.email person));
                   ("responseStatus",
                     JStr (response_status (Exchange.response person)))])
           (body_attendees (transform_event cfg ev))).
Proof.
  repeat split; try reflexivity.
  - intros r H. unfold response_status, RESPONSE_MAPPING. simpl.
    repeat match goal with
    | |- context [String.eqb r ?k] =>
        destruct (String.eqb_spec r k) as [->|_]; [exfalso; apply H; simpl; tauto|]
    end.
    reflexivity.
  - intros cfg ev person Hin Hv.
    now apply (attendee_entry_included cfg ev person Hin).
Qed.

Lemma response_status_mapping_witness :
  response_status (Some "Tentative") = "needsAction".
Proof.
  apply (proj1 (proj2 (proj2 (proj2 (proj2 (proj2 response_status_mapping)))))).
  simpl. intros [H|[H|[H|[H|[]]]]]; discriminate H.
Defined.

(** C8, as stated, fails for the responses it names: tentative, accepted
    and declined are no keys of the table, whose keys are Unknown, Accepted,
    TentativelyAccepted and Declined, and an attendee with the response
    tentative is in the body with the status needsAction. *)
Lemma lower_case_responses_give_needsAction :
  let person := Exchange.mk_person (Some "Bob") "bob@x.org" (Some "tentative") in
  let ev := Exchange.mk_event "A" (Some "Lunch") None 0 3600 None [person] in
  let cfg := mk_config Datetime.utc None None "me@example.com" in
  response_status (Some "tentative") = "needsAction"
  /\ response_status (Some "accepted") = "needsAction"
  /\ response_status (Some "declined") = "needsAction"
  /\ body_attendees (transform_event cfg ev)
     = [JDict [("displayName", JStr "Bob"); ("email", JStr "bob@x.org");
               ("responseStatus", JStr "needsAction")];
        JDict [("email", JStr "me@example.com"); ("responseStatus", JStr "accepted")]]
  /\ ~ responses_as_specified.
Proof.
  cbv zeta. split; [reflexivity|]. split; [reflexivity|]. split; [reflexivity|].
  split; [vm_compute; reflexivity|].
  intros (_ & H & _). vm_compute in H. discriminate H.
Qed.

(* ------------------------------------------------------------------ *)
(** ** The time window *)

Lemma start_date_eq (cfg : config) (now : Z) :
  Window.start_date cfg now
  = let past := match DaysPast cfg with Some d => d | None => 7 end in
    let s := now - Z.abs past * 86400000000 in
    if (Z.abs past <=? 999999999)
       && ((Window.datetime_min <=? s) && (s <=? Window.datetime_max))
    then Window.At s else Window.OverflowError.
Proof.
  unfold Window.start_date, Window.timedelta_days, Window.datetime_add, getint.
  cbv zeta. rewrite Z.abs_idemp.
  destruct (DaysPast cfg) as [d|];
    destruct (Z.abs _ <=? 999999999); cbn [andb]; trivial;
    now rewrite <- Z.add_opp_r.
Qed.

Lemma end_date_eq (cfg : config) (now : Z) :
  Window.end_date cfg now
  = let future := match DaysFuture cfg with Some d => d | None => 14 end in
    let e := now + Z.abs future * 86400000000 in
    if (Z.abs future <=? 999999999)
       && ((Window.datetime_min <=? e) && (e <=? Window.datetime_max))
    then Window.At e else Window.OverflowError.
Proof.
  unfold Window.end_date, Window.timedelta_days, Window.datetime_add, getint.
  cbv zeta. rewrite Z.abs_idemp.
  destruct (DaysFuture cfg) as [d|];
    destruct (Z.abs _ <=? 999999999); cbn [andb]; trivial.
Qed.

(** C9, as amended: the absolute value of each configured day count is used
    (7 and 14 days when nothing is configured), and now is a datetime.  When
    now less |DaysPast| days is a datetime, it is the start of the window;
    when now plus |DaysFuture| days is a datetime, it is the end of the
    window.  When a bound is no datetime, or a day count is above 999999999,
    computing the bound raises OverflowError.  A start that is computed is
    never after now, an end that is computed is never before now, and the
    sign of either setting is without effect. *)
Theorem window_uses_absolute_day_counts (cfg : config) (now : Z)
    (Hnow : Window.datetime_min <= now <= Window.datetime_max) :
  let past := match DaysPast cfg with Some d => d | None => 7 end in
  let future := match DaysFuture cfg with Some d => d | None => 14 end in
  let s := now - Z.abs past * 86400000000 in
  let e := now + Z.abs future * 86400000000 in
  (Window.datetime_min <= s <= Window.datetime_max ->
     Window.start_date cfg now = Window.At s)
  /\ (Window.datetime_min <= e <= Window.datetime_max ->
       Window.end_date cfg now = Window.At e)
  /\ (s < Window.datetime_min \/ Window.datetime_max < s \/ 999999999 < Z.abs past ->
       Window.start_date cfg now = Window.OverflowError)
  /\ (e < Window.datetime_min \/ Window.datetime_max < e \/ 999999999 < Z.abs future ->
       Window.end_date cfg now = Window.OverflowError)
  /\ (forall t, Window.start_date cfg now = Window.At t -> t = s /\ t <= now)
  /\ (forall t, Window.end_date cfg now = Window.At t -> t = e /\ now <= t)
  /\ Window.start_date
       (mk_config (Timezone cfg) (Some (- past)) (Some (- future)) (CalendarAddress cfg))
       now = Window.start_date cfg now
  /\ Window.end_date
       (mk_config (Timezone cfg) (Some (- past)) (Some (- future)) (CalendarAddress cfg))
       now = Window.end_date cfg now.
Proof.
  cbv zeta.
  rewrite (start_date_eq (mk_config _ _ _ _)), (end_date_eq (mk_config _ _ _ _)).
  rewrite start_date_eq, end_date_eq. cbv zeta. cbn [DaysPast DaysFuture].
  rewrite !Z.abs_opp.
  set (past := match DaysPast cfg with Some d => d | None => 7 end).
  set (future := match DaysFuture cfg with Some d => d | None => 14 end).
  unfold Window.datetime_min, Window.datetime_max in *.
  pose proof (Z.abs_nonneg past) as Hp. pose proof (Z.abs_nonneg future) as Hf.
  repeat split; trivial.
  - intros [H1 H2].
    destruct (Z.leb_spec (Z.abs past) 999999999); [|lia].
    destruct (Z.leb_spec (-62135596800000000) (now - Z.abs past * 86400000000)); [|lia].
    destruct (Z.leb_spec (now - Z.abs past * 86400000000) 253402300799999999); [|lia].
    reflexivity.
  - intros [H1 H2].
    destruct (Z.leb_spec (Z.abs future) 999999999); [|lia].
    destruct (Z.leb_spec (-62135596800000000) (now + Z.abs future * 86400000000)); [|lia].
    destruct (Z.leb_spec (now + Z.abs future * 86400000000) 253402300799999999); [|lia].
    reflexivity.
  - intros H.
    destruct (Z.leb_spec (Z.abs past) 999999999); [|reflexivity].
    destruct (Z.leb_spec (-62135596800000000) (now - Z.abs past * 86400000000));
      [|reflexivity].
    destruct (Z.leb_spec (now - Z.abs past * 86400000000) 253402300799999999);
      [lia|reflexivity].
  - intros H.
    destruct (Z.leb_spec (Z.abs future) 999999999); [|reflexivity].
    destruct (Z.leb_spec (-62135596800000000) (now + Z.abs future * 86400000000));
      [|reflexivity].
    destruct (Z.leb_spec (now + Z.abs future * 86400000000) 253402300799999999);
      [lia|reflexivity].
  - destruct ((Z.abs past <=? 999999999)
              && ((-62135596800000000 <=? now - Z.abs past * 86400000000)
                  && (now - Z.abs past * 86400000000 <=? 253402300799999999)));
      [|discriminate H]. now injection H.
  - destruct ((Z.abs past <=? 999999999)
              && ((-62135596800000000 <=? now - Z.abs past * 86400000000)
                  && (now - Z.abs past * 86400000000 <=? 253402300799999999)));
      [|discriminate H]. injection H as <-. lia.
  - destruct ((Z.abs future <=? 999999999)
              && ((-62135596800000000 <=? now + Z.abs future * 86400000000)
                  && (now + Z.abs future * 86400000000 <=? 253402300799999999)));
      [|discriminate H]. now injection H.
  - destruct ((Z.abs future <=? 999999999)
              && ((-62135596800000000 <=? now + Z.abs future * 86400000000)
                  && (now + Z.abs future * 86400000000 <=? 253402300799999999)));
      [|discriminate H]. injection H as <-. lia.
Qed.

Lemma window_uses_absolute_day_counts_witness :
  Window.start_date (mk_config Datetime.utc (Some (-3)) None "me@example.com")
    1700000000000000
  = Window.At 1699740800000000.
Proof.
  apply (proj1 (window_uses_absolute_day_counts
                  (mk_config Datetime.utc (Some (-3)) None "me@example.com")
                  1700000000000000 ltac:(unfold Window.datetime_min, Window.datetime_max; lia))).
  unfold Window.datetime_min, Window.datetime_max. simpl. lia.
Defined.

(** C9, as stated, fails for a day count that leads out of the years 1 to
    9999: with DaysPast = 4000000 and now in 2023 the start of the window is
    not now less 4000000 days, the subtraction raises OverflowError. *)
Lemma window_start_overflows :
  let cfg := mk_config Datetime.utc (Some 4000000) None "me@example.com" in
  Window.start_date cfg 1700000000000000 = Window.OverflowError
  /\ Window.end_date cfg 1700000000000000 = Window.At 1701209600000000
  /\ ~ window_as_specified cfg 1700000000000000.
Proof.
  cbv zeta. split; [reflexivity|]. split; [reflexivity|].
  intros [H _]. vm_compute in H. discriminate H.
Qed.

(* ------------------------------------------------------------------ *)
(** ** All-day events *)

Lemma is_all_day_iff (ev : Exchange.event) :
  is_all_day ev = true
  <-> (Exchange.end_ ev - Exchange.start ev) mod 86400 = 0.
Proof. unfold is_all_day. change (24 * 60 * 60) with 86400. apply Z.eqb_eq. Qed.

Lemma day_before_midnight (x : Z) :
  x mod 86400 = 0 -> (x - 1) / 86400 = x / 86400 - 1.
Proof.
  intros H. pose proof (Z.div_mod x 86400 ltac:(lia)) as E. rewrite H in E.
  symmetry. apply (Z.div_unique (x - 1) 86400 (x / 86400 - 1) 86399); lia.
Qed.




(* ------------------------------------------------------------------ *)
(** ** The content hash *)

Lemma get_pop_other {V : Type} (k k' : string) (d : list (string * V)) :
  k <> k' -> Dict.get k (Dict.pop k' d) = Dict.get k d.
Proof.
  intros N. induction d as [|[x v] d IH]; simpl; [reflexivity|].
  destruct (String.eqb_spec k' x) as [->|Nx].
  - destruct (String.eqb_spec k x) as [->|_]; [contradiction|reflexivity].
  - simpl. now rewrite IH.
Qed.

Lemma dumps_dict_sorted (d : list (string * json)) :
  exists items,
    Json.dumps (JDict d)
    = ("{" ++ String.concat ", " (map Json.item items) ++ "}")%string
    /\ Sorted str_le (map fst items)
    /\ Permutation items (map (fun kv => (fst kv, Json.dumps (snd kv))) d).
Proof.
  exists (sorted fst (map (fun kv => (fst kv, Json.dumps (snd kv))) d)).
  split; [reflexivity|]. split.
  - apply Sorted_map_key, sorted_Sorted.
  - apply Permutation_sym, sorted_perm.
Qed.

(** the serialisation of a dictionary does not depend on the order in which
    its keys were entered *)
Lemma dumps_dict_perm (d d' : list (string * json)) :
  Permutation d d' -> NoDup (Dict.keys d) ->
  Json.dumps (JDict d) = Json.dumps (JDict d').
Proof.
  intros P N.
  change (Json.dumps (JDict d))
    with ("{" ++ String.concat ", "
                   (map Json.item
                      (sorted fst (map (fun kv => (fst kv, Json.dumps (snd kv))) d)))
              ++ "}")%string.
  change (Json.dumps (JDict d'))
    with ("{" ++ String.concat ", "
                   (map Json.item
                      (sorted fst (map (fun kv => (fst kv, Json.dumps (snd kv))) d')))
              ++ "}")%string.
  do 4 f_equal. apply sorted_perm_eq.
  - now apply Permutation_map.
  - rewrite map_map. exact N.
Qed.

Lemma body_before_hash_keys (cfg : config) (ev : Exchange.event) :
  Dict.keys (body_before_hash cfg ev)
  = ["iCalUID"; "summary"; "location"; "start"; "end"; "organizer"; "attendees";
     "reminders"].
Proof. unfold body_before_hash. destruct (is_all_day ev); reflexivity. Qed.

Lemma body_before_hash_keys_NoDup (cfg : config) (ev : Exchange.event) :
  NoDup (Dict.keys (body_before_hash cfg ev)).
Proof.
  rewrite body_before_hash_keys.
  repeat constructor; simpl; intuition discriminate.
Qed.

(** C5: the description of a normalised body is the hexadecimal SHA-1
    digest of the serialisation, keys in ascending order, of the body
    without its description: the body as it was before the description was
    set, with every other field of the final body.  The digest does not
    depend on the order in which the fields were entered. *)
Theorem description_is_sha1_of_other_fields (cfg : config) (ev : Exchange.event) :
  let body := transform_event cfg ev in
  let others := Dict.pop "description" body in
  Dict.get "description" body
  = Some (JStr (Sha1.hexdigest (Json.dumps (JDict others))))
  /\ others = body_before_hash cfg ev
  /\ Dict.get "description" others = None
  /\ (forall k, k <> "description" -> Dict.get k others = Dict.get k body)
  /\ (exists items,
        Json.dumps (JDict others)
        = ("{" ++ String.concat ", " (map Json.item items) ++ "}")%string
        /\ Sorted str_le (map fst items)
        /\ Permutation items (map (fun kv => (fst kv, Json.dumps (snd kv))) others))
  /\ (forall reordered,
        Permutation others reordered ->
        Dict.get "description" body = Some (JStr (hash_event reordered))).
Proof.
  cbv zeta. rewrite transform_event_pop_description, transform_event_description.
  repeat split.
  - apply body_before_hash_no_description.
  - intros k N. rewrite <- (transform_event_pop_description cfg ev).
    now apply get_pop_other.
  - apply dumps_dict_sorted.
  - intros d' P. unfold hash_event. cbv zeta.
    now rewrite (dumps_dict_perm _ d' P (body_before_hash_keys_NoDup cfg ev)).
Qed.

(* ------------------------------------------------------------------ *)
(** ** Dictionaries *)

Section DictFacts.
Context {V : Type}.
Implicit Types (d : list (string * V)) (k : string).

Lemma get_In k d v : Dict.get k d = Some v -> In (k, v) d.
Proof.
  induction d as [|[x w] d IH]; simpl; [discriminate|].
  destruct (String.eqb_spec k x) as [->|_].
  - intros [= ->]. now left.
  - intros H. right. now apply IH.
Qed.

Lemma get_None_keys k d : Dict.get k d = None <-> ~ In k (Dict.keys d).
Proof.
  induction d as [|[x w] d IH]; simpl; [tauto|].
  destruct (String.eqb_spec k x) as [->|N].
  - split; [discriminate|]. intros H. exfalso. apply H. now left.
  - rewrite IH. split; [intros H [E|E]; [congruence|contradiction]|tauto].
Qed.


Lemma pop_absent k d : Dict.get k d = None -> Dict.pop k d = d.
Proof.
  induction d as [|[x w] d IH]; simpl; [reflexivity|].
  destruct (String.eqb k x); [discriminate|]. intros H. now rewrite IH.
Qed.

Lemma pop_filter k d :
  NoDup (Dict.keys d) ->
  Dict.pop k d = filter (fun kv => negb (String.eqb k (fst kv))) d.
Proof.
  induction d as [|[x w] d IH]; simpl; [reflexivity|].
  intros N. inversion N as [|? ? Hx Nd]; subst.
  destruct (String.eqb_spec k x) as [->|Nk]; simpl.
  - symmetry. apply forallb_filter_id. apply forallb_forall.
    intros [y u] Hy. simpl. apply negb_true_iff, String.eqb_neq.
    intros ->. apply Hx. apply (in_map fst) in Hy. exact Hy.
  - now rewrite IH.
Qed.

Lemma keys_filter_NoDup (f : string * V -> bool) d :
  NoDup (Dict.keys d) -> NoDup (Dict.keys (filter f d)).
Proof.
  induction d as [|[x w] d IH]; simpl; [trivial|].
  intros N. inversion N as [|? ? Hx Nd]; subst.
  destruct (f (x, w)); [|now apply IH].
  simpl. constructor; [|now apply IH].
  intros H. apply Hx. unfold Dict.keys in *. apply in_map_iff in H as (kv & E & H).
  apply filter_In in H as [H _]. apply in_map_iff. now exists kv.
Qed.

(** a lookup only sees the entries of its key *)
Lemma get_filter_key (fk : string -> bool) k d :
  fk k = true -> Dict.get k (filter (fun kv => fk (fst kv)) d) = Dict.get k d.
Proof.
  intros Hk. induction d as [|[x w] d IH]; simpl; [reflexivity|].
  destruct (String.eqb_spec k x) as [->|N].
  - rewrite Hk. simpl. now rewrite String.eqb_refl.
  - destruct (fk x); simpl; [|exact IH].
    destruct (String.eqb_spec k x); [contradiction|exact IH].
Qed.

End DictFacts.

(* ------------------------------------------------------------------ *)
(** ** One turn of the first loop *)

Lemma sync_event_eq (cfg : config) (m : list (string * google_event))
    (ev : Exchange.event) :
  sync_event cfg m ev
  = match Dict.get (Exchange.id ev) m with
    | Some d =>
        ((if String.eqb (content_hash (transform_event cfg ev)) (stored_hash d)
          then [] else [Update (id d) (transform_event cfg ev)]),
         Ok (Dict.pop (Exchange.id ev) m))
    | None => ([Import (transform_event cfg ev)], Ok m)
    end.
Proof.
  unfold sync_event, Run.getitem. cbv zeta.
  rewrite transform_event_iCalUID, transform_event_description,
    transform_event_summary, content_hash_transform_event.
  generalize (transform_event cfg ev) as body.
  generalize (hash_event (body_before_hash cfg ev)) as h.
  intros h body. simpl.
  destruct (Dict.get (Exchange.id ev) m) as [d|]; [|reflexivity].
  simpl. destruct (String.eqb h (stored_hash d)); reflexivity.
Qed.


(** C10: a matched destination event with no description is always updated:
    its stored hash reads as the empty string, and the content hash of the
    canonical event is forty characters long. *)
Theorem missing_description_forces_update (cfg : config) (ev : Exchange.event)
    (m : list (string * google_event)) (d : google_event) :
  Dict.get (Exchange.id ev) m = Some d ->
  description d = None ->
  mutations (sync_event cfg m ev) = [Update (id d) (transform_event cfg ev)]
  /\ stored_hash d = EmptyString
  /\ String.length (content_hash (transform_event cfg ev)) = 40%nat.
Proof.
  intros G D. rewrite sync_event_eq, G. unfold mutations, stored_hash.
  rewrite D, content_hash_transform_event. simpl.
  destruct (String.eqb_spec (hash_event (body_before_hash cfg ev)) EmptyString) as [E|_].
  - now apply hash_event_nonempty in E.
  - repeat split.
Qed.

Lemma missing_description_forces_update_witness :
  let cfg := mk_config Datetime.utc None None "me@example.com" in
  let ev := Exchange.mk_event "A" (Some "Lunch") None 0 3600 None [] in
  let d := mk_google_event "g1" (Some "A") (Some "Lunch") None in
  mutations (sync_event cfg [("A", d)] ev) = [Update "g1" (transform_event cfg ev)]
  /\ stored_hash d = EmptyString
  /\ String.length (content_hash (transform_event cfg ev)) = 40%nat.
Proof.
  exact (missing_description_forces_update
           (mk_config Datetime.utc None None "me@example.com")
           (Exchange.mk_event "A" (Some "Lunch") None 0 3600 None [])
           [("A", mk_google_event "g1" (Some "A") (Some "Lunch") None)]
           (mk_google_event "g1" (Some "A") (Some "Lunch") None)
           eq_refl eq_refl).
Defined.

(** C2: a destination event that no source event matches and that has no
    summary is not deleted: reading its summary for the log line raises
    KeyError before the delete call, and the events after it in the mapping
    are not deleted either. *)
Theorem leftover_without_summary_is_not_deleted :
  let cfg := mk_config Datetime.utc None None "me@example.com" in
  let untitled := mk_google_event "g1" (Some "C") None (Some "0a1b") in
  let titled := mk_google_event "g2" (Some "D") (Some "Lunch") (Some "2c3d") in
  let m := get_events_from_google_calendar [untitled; titled] in
  m = [("C", untitled); ("D", titled)]
  /\ main cfg [] m = ([], Raise (KeyError "summary")).
Proof. cbv zeta. split; reflexivity. Qed.

(* ------------------------------------------------------------------ *)
(** ** The destination's reaction to one call *)

Section DestinationFacts.
Import Destination.
Implicit Types (m : list (string * google_event)) (k : string).

Lemma steps_app_inv m log1 log2 m'' :
  steps m (log1 ++ log2) m'' ->
  exists m', steps m log1 m' /\ steps m' log2 m''.
Proof.
  revert m. induction log1 as [|c log1 IH]; simpl; intros m H.
  - exists m. split; [constructor|exact H].
  - inversion H as [|? m1 ? ? ? S R]; subst.
    destruct (IH _ R) as (m' & R1 & R2).
    exists m'. split; [econstructor; eassumption|exact R2].
Qed.

Lemma steps_nil_inv m m' : steps m [] m' -> m' = m.
Proof. intros H. now inversion H. Qed.

Lemma steps_one_inv m c m' : steps m [c] m' -> step m c m'.
Proof.
  intros H. inversion H as [|? m1 ? ? ? S R]; subst.
  apply steps_nil_inv in R. now subst.
Qed.

(** *** update *)

Lemma keys_update i body m : Dict.keys (update i body m) = Dict.keys m.
Proof.
  unfold Dict.keys, update. rewrite map_map. apply map_ext.
  intros [k g]. simpl. now destruct (String.eqb (id g) i).
Qed.

Lemma ids_update i body m : ids (update i body m) = ids m.
Proof.
  unfold ids, update. rewrite map_map. apply map_ext.
  intros [k g]. simpl. destruct (String.eqb_spec (id g) i) as [E|_]; simpl; congruence.
Qed.

Lemma get_update k g body m :
  Dict.get k m = Some g ->
  Dict.get k (update (id g) body m) = Some (stored (id g) body).
Proof.
  induction m as [|[x w] m IH]; simpl; [discriminate|].
  destruct (String.eqb_spec k x) as [->|N].
  - intros [= ->]. rewrite String.eqb_refl. simpl. now rewrite String.eqb_refl.
  - intros H. destruct (String.eqb (id w) (id g)); simpl;
      (destruct (String.eqb_spec k x); [contradiction|now apply IH]).
Qed.

Lemma filter_update (fk : string -> bool) k g body m :
  NoDup (ids m) -> Dict.get k m = Some g -> fk k = false ->
  filter (fun kv => fk (fst kv)) (update (id g) body m)
  = filter (fun kv => fk (fst kv)) m.
Proof.
  intros N G F. apply get_In in G.
  assert (H : forall kv, In kv m -> fk (fst kv) = true ->
                         String.eqb (id (snd kv)) (id g) = false).
  { intros kv Hkv Hf. apply String.eqb_neq. intros E.
    assert (kv = (k, g)) as ->
        by (apply (NoDup_map_inj_in (fun kv => id (snd kv)) m); assumption).
    simpl in Hf. congruence. }
  clear N G. unfold update. induction m as [|[x w] m IH]; simpl; [reflexivity|].
  destruct (fk x) eqn:Fx.
  - pose proof (H (x, w) (or_introl eq_refl) Fx) as E. simpl in E.
    rewrite E. simpl. rewrite Fx. f_equal.
    apply IH. intros kv Hkv. apply H. now right.
  - destruct (String.eqb (id w) (id g)); simpl; rewrite Fx;
      apply IH; intros kv Hkv; apply H; now right.
Qed.

(** *** import *)

Lemma In_keys_set k g m y :
  In y (Dict.keys (Dict.set k g m)) -> y = k \/ In y (Dict.keys m).
Proof.
  induction m as [|[x w] m IH]; simpl.
  - intros [<-|[]]. now left.
  - destruct (String.eqb_spec k x) as [->|N]; simpl.
    + intros [<-|H]; auto.
    + intros [<-|H]; auto. destruct (IH H); auto.
Qed.

Lemma keys_set_NoDup k g m :
  NoDup (Dict.keys m) -> NoDup (Dict.keys (Dict.set k g m)).
Proof.
  induction m as [|[x w] m IH]; simpl; intros N.
  - repeat constructor. intros [].
  - inversion N as [|? ? Hx Nm]; subst.
    destruct (String.eqb_spec k x) as [->|Nk]; simpl.
    + now constructor.
    + constructor; [|now apply IH].
      intros H. apply In_keys_set in H as [H|H]; [congruence|contradiction].
Qed.

Lemma In_ids_set k g m y :
  In y (ids (Dict.set k g m)) -> y = id g \/ In y (ids m).
Proof.
  induction m as [|[x w] m IH]; simpl.
  - intros [<-|[]]. now left.
  - destruct (String.eqb_spec k x) as [->|N]; simpl.
    + intros [<-|H]; auto.
    + intros [<-|H]; auto. destruct (IH H); auto.
Qed.

Lemma ids_set_NoDup k g m :
  NoDup (ids m) -> ~ In (id g) (ids m) -> NoDup (ids (Dict.set k g m)).
Proof.
  induction m as [|[x w] m IH]; simpl; intros N F.
  - repeat constructor. intros [].
  - inversion N as [|? ? Hx Nm]; subst.
    destruct (String.eqb_spec k x) as [->|Nk]; simpl.
    + constructor; [tauto|exact Nm].
    + constructor; [|apply IH; tauto].
      intros H. apply In_ids_set in H as [H|H]; [|contradiction].
      apply F. left. congruence.
Qed.

Lemma get_set k g m : Dict.get k (Dict.set k g m) = Some g.
Proof.
  induction m as [|[x w] m IH]; simpl.
  - now rewrite String.eqb_refl.
  - destruct (String.eqb_spec k x) as [->|N]; simpl.
    + now rewrite String.eqb_refl.
    + destruct (String.eqb_spec k x); [contradiction|exact IH].
Qed.

Lemma filter_set (fk : string -> bool) k g m :
  fk k = false ->
  filter (fun kv => fk (fst kv)) (Dict.set k g m)
  = filter (fun kv => fk (fst kv)) m.
Proof.
  intros F. induction m as [|[x w] m IH]; simpl.
  - now rewrite F.
  - destruct (String.eqb_spec k x) as [->|N]; simpl.
    + now rewrite F.
    + now rewrite IH.
Qed.

(** *** delete *)

Lemma delete_absent i m : ~ In i (ids m) -> delete i m = m.
Proof.
  intros H. apply filter_all. intros kv Hkv.
  apply negb_true_iff, String.eqb_neq. intros E. apply H.
  unfold ids. apply in_map_iff. now exists kv.
Qed.

Lemma delete_head k g m :
  NoDup (ids ((k, g) :: m)) -> delete (id g) ((k, g) :: m) = m.
Proof.
  intros N. inversion N as [|? ? Hg Nm]; subst.
  unfold delete at 1. simpl. rewrite String.eqb_refl. simpl.
  now apply delete_absent.
Qed.

End DestinationFacts.

(* ------------------------------------------------------------------ *)
(** ** The two loops of a run *)

Section Runs.
Variable cfg : config.
Implicit Types (m mw mc : list (string * google_event)).
Implicit Types (events : list Exchange.event).

Lemma sync_event_snd m ev :
  snd (sync_event cfg m ev) = Ok (Dict.pop (Exchange.id ev) m).
Proof.
  rewrite sync_event_eq.
  destruct (Dict.get (Exchange.id ev) m) eqn:G; simpl; [reflexivity|].
  now rewrite pop_absent.
Qed.

Lemma sync_loop_cons ev events m :
  sync_loop cfg (ev :: events) m
  = (mutations (sync_event cfg m ev)
       ++ mutations (sync_loop cfg events (Dict.pop (Exchange.id ev) m)),
     snd (sync_loop cfg events (Dict.pop (Exchange.id ev) m))).
Proof.
  change (sync_loop cfg (ev :: events) m)
    with (Run.bind (sync_event cfg m ev) (fun g => sync_loop cfg events g)).
  pose proof (sync_event_snd m ev) as S.
  destruct (sync_event cfg m ev) as [log r]. simpl in S. subst r.
  unfold Run.bind, mutations. simpl.
  now destruct (sync_loop cfg events (Dict.pop (Exchange.id ev) m)).
Qed.

(** the first loop never raises: it leaves the mapping less the matched keys *)
Lemma sync_loop_snd events m :
  snd (sync_loop cfg events m)
  = Ok (fold_left (fun d e => Dict.pop (Exchange.id e) d) events m).
Proof.
  revert m. induction events as [|ev events IH]; intros m; [reflexivity|].
  rewrite sync_loop_cons. simpl. apply IH.
Qed.

Lemma unmatched_cons ev events m :
  unmatched (ev :: events) m
  = unmatched events
      (filter (fun kv => negb (String.eqb (Exchange.id ev) (fst kv))) m).
Proof.
  unfold unmatched. induction m as [|[x w] m IH]; simpl in *; [reflexivity|].
  rewrite (String.eqb_sym (Exchange.id ev) x).
  destruct (String.eqb x (Exchange.id ev)); simpl; rewrite IH; reflexivity.
Qed.

Lemma fold_pop_unmatched events m :
  NoDup (Dict.keys m) ->
  fold_left (fun d e => Dict.pop (Exchange.id e) d) events m = unmatched events m.
Proof.
  revert m. induction events as [|ev events IH]; intros m N; cbn [fold_left].
  - symmetry. now apply filter_all.
  - rewrite unmatched_cons, <- pop_filter by exact N.
    apply IH. rewrite pop_filter by exact N. now apply keys_filter_NoDup.
Qed.

Lemma delete_loop_cons k g items :
  delete_loop ((k, g) :: items)
  = match summary g with
    | Some _ => (Delete (id g) :: mutations (delete_loop items), snd (delete_loop items))
    | None => ([], Raise (KeyError "summary"))
    end.
Proof.
  simpl. destruct (summary g); [|reflexivity].
  unfold Run.bind, mutations. simpl. now destruct (delete_loop items).
Qed.

Lemma main_eq events m :
  main cfg events m
  = (mutations (sync_loop cfg events m)
       ++ mutations (delete_loop
                       (fold_left (fun d e => Dict.pop (Exchange.id e) d) events m)),
     snd (delete_loop (fold_left (fun d e => Dict.pop (Exchange.id e) d) events m))).
Proof.
  unfold main. pose proof (sync_loop_snd events m) as S.
  destruct (sync_loop cfg events m) as [log r]. simpl in S. subst r.
  unfold Run.bind, mutations. simpl.
  now destruct (delete_loop _).
Qed.

(** a mapping that holds every source event under its identifier, with the
    hash of today, gets no call from the first loop *)
Lemma sync_loop_in_sync events m :
  NoDup (map Exchange.id events) ->
  (forall e, In e events ->
     exists g, Dict.get (Exchange.id e) m = Some g
               /\ stored_hash g = content_hash (transform_event cfg e)) ->
  mutations (sync_loop cfg events m) = [].
Proof.
  revert m. induction events as [|ev events IH]; intros m N H; [reflexivity|].
  rewrite sync_loop_cons. unfold mutations at 1. simpl.
  inversion N as [|? ? Hev Nev]; subst.
  destruct (H ev (or_introl eq_refl)) as (g & G & E).
  rewrite sync_event_eq, G, E, String.eqb_refl. simpl.
  apply IH; [exact Nev|]. intros e He.
  destruct (H e (or_intror He)) as (g' & G' & E').
  exists g'. split; [|exact E'].
  rewrite get_pop_other; [exact G'|].
  intros Eid. apply Hev. rewrite <- Eid. now apply in_map.
Qed.

(** *** What the calls of one turn do to the destination *)

Lemma stored_hash_stored i ev :
  stored_hash (Destination.stored i (transform_event cfg ev))
  = content_hash (transform_event cfg ev).
Proof.
  unfold stored_hash, Destination.stored, Destination.body_str, content_hash. simpl.
  now rewrite transform_event_description.
Qed.

Lemma turn_applied mw mc mc1 ev :
  NoDup (Dict.keys mc) -> NoDup (Destination.ids mc) ->
  Dict.get (Exchange.id ev) mw = Dict.get (Exchange.id ev) mc ->
  Destination.steps mc (mutations (sync_event cfg mw ev)) mc1 ->
  NoDup (Dict.keys mc1) /\ NoDup (Destination.ids mc1)
  /\ (exists g, Dict.get (Exchange.id ev) mc1 = Some g
                /\ stored_hash g = content_hash (transform_event cfg ev))
  /\ (forall fk : string -> bool, fk (Exchange.id ev) = false ->
        filter (fun kv => fk (fst kv)) mc1 = filter (fun kv => fk (fst kv)) mc).
Proof.
  intros Nk Ni Agree S. rewrite sync_event_eq, Agree in S. unfold mutations in S.
  destruct (Dict.get (Exchange.id ev) mc) as [g|] eqn:G; simpl in S.
  - destruct (String.eqb_spec (content_hash (transform_event cfg ev)) (stored_hash g))
      as [E|_].
    + apply steps_nil_inv in S. subst mc1. repeat split; trivial.
      exists g. now split.
    + apply steps_one_inv in S. inversion S; subst. repeat split.
      * now rewrite keys_update.
      * now rewrite ids_update.
      * exists (Destination.stored (id g) (transform_event cfg ev)).
        split; [now apply get_update|apply stored_hash_stored].
      * intros fk F. now apply (filter_update fk (Exchange.id ev)).
  - apply steps_one_inv in S. inversion S as [? ? uid new_id U Fresh| |]; subst.
    unfold Destination.body_str in U. rewrite transform_event_iCalUID in U.
    injection U as <-. repeat split.
    + now apply keys_set_NoDup.
    + now apply ids_set_NoDup.
    + exists (Destination.stored new_id (transform_event cfg ev)).
      split; [apply get_set|apply stored_hash_stored].
    + intros fk F. now apply filter_set.
Qed.

Lemma first_loop_applied events mw mc ma :
  NoDup (map Exchange.id events) ->
  NoDup (Dict.keys mc) -> NoDup (Destination.ids mc) ->
  (forall e, In e events ->
     Dict.get (Exchange.id e) mw = Dict.get (Exchange.id e) mc) ->
  Destination.steps mc (mutations (sync_loop cfg events mw)) ma ->
  NoDup (Dict.keys ma) /\ NoDup (Destination.ids ma)
  /\ (forall e, In e events ->
        exists g, Dict.get (Exchange.id e) ma = Some g
                  /\ stored_hash g = content_hash (transform_event cfg e))
  /\ (forall fk : string -> bool,
        (forall e, In e events -> fk (Exchange.id e) = false) ->
        filter (fun kv => fk (fst kv)) ma = filter (fun kv => fk (fst kv)) mc).
Proof.
  revert mw mc. induction events as [|ev events IH]; intros mw mc N Nk Ni Agree S.
  - apply steps_nil_inv in S. subst ma. repeat split; trivial. intros e [].
  - rewrite sync_loop_cons in S. unfold mutations at 1 in S. simpl in S.
    apply steps_app_inv in S as (mc1 & S1 & S2).
    inversion N as [|? ? Hev Nev]; subst.
    destruct (turn_applied mw mc mc1 ev Nk Ni (Agree ev (or_introl eq_refl)) S1)
      as (Nk1 & Ni1 & (g & G & E) & Frame1).
    assert (Other : forall e, In e events -> Exchange.id e <> Exchange.id ev).
    { intros e He Eid. apply Hev. rewrite <- Eid. now apply in_map. }
    assert (Agree1 : forall e, In e events ->
              Dict.get (Exchange.id e) (Dict.pop (Exchange.id ev) mw)
              = Dict.get (Exchange.id e) mc1).
    { intros e He. rewrite get_pop_other by now apply Other.
      rewrite (Agree e (or_intror He)).
      rewrite <- (get_filter_key (String.eqb (Exchange.id e)) _ mc1)
        by apply String.eqb_refl.
      rewrite <- (get_filter_key (String.eqb (Exchange.id e)) _ mc)
        by apply String.eqb_refl.
      rewrite Frame1; [reflexivity|]. apply String.eqb_neq. now apply Other. }
    destruct (IH _ _ Nev Nk1 Ni1 Agree1 S2) as (Nka & Nia & Hold & Frame).
    repeat split; trivial.
    + intros e [<-|He]; [|now apply Hold].
      exists g. split; [|exact E].
      rewrite <- G.
      rewrite <- (get_filter_key (String.eqb (Exchange.id ev)) _ ma)
        by apply String.eqb_refl.
      rewrite <- (get_filter_key (String.eqb (Exchange.id ev)) _ mc1)
        by apply String.eqb_refl.
      rewrite Frame; [reflexivity|].
      intros e He. apply String.eqb_neq. intros Eid. now apply (Other e He).
    + intros fk F. rewrite Frame by (intros e He; apply F; now right).
      apply Frame1. apply F. now left.
Qed.

(** *** What the deletes do to the destination *)

Lemma second_loop_applied (f : string * google_event -> bool) items mc m' :
  NoDup (Destination.ids mc) ->
  filter f mc = items ->
  Destination.steps mc (mutations (delete_loop items)) m' ->
  mutations (delete_loop (filter f m')) = []
  /\ filter (fun kv => negb (f kv)) m' = filter (fun kv => negb (f kv)) mc
  /\ (NoDup (Dict.keys mc) -> NoDup (Dict.keys m')).
Proof.
  revert mc. induction items as [|[k g] items IH]; intros mc Ni F S.
  - apply steps_nil_inv in S. subst m'. rewrite F. now repeat split.
  - rewrite delete_loop_cons in S.
    destruct (summary g) eqn:Sg; unfold mutations in S; simpl in S.
    + inversion S as [|? mc1 ? ? ? S1 S2]; subst. inversion S1; subst.
      assert (Ni1 : NoDup (Destination.ids (Destination.delete (id g) mc)))
        by now apply NoDup_map_filter.
      assert (Nf : NoDup (Destination.ids ((k, g) :: items)))
        by (rewrite <- F; now apply NoDup_map_filter).
      assert (F1 : filter f (Destination.delete (id g) mc) = items).
      { unfold Destination.delete. rewrite filter_comm. fold (Destination.delete (id g)).
        rewrite F. now apply delete_head. }
      destruct (IH _ Ni1 F1 S2) as (Quiet & Frame & Keys).
      split; [exact Quiet|]. split.
      * rewrite Frame. unfold Destination.delete. rewrite filter_comm.
        apply filter_all. intros kv Hkv. apply filter_In in Hkv as [Hkv Hf].
        apply negb_true_iff, String.eqb_neq. intros E.
        assert (Hg : In (k, g) mc).
        { apply (proj1 (filter_In f (k, g) mc)). rewrite F. now left. }
        assert (kv = (k, g)) as ->
            by (apply (NoDup_map_inj_in (fun kv => id (snd kv)) mc); assumption).
        assert (f (k, g) = true).
        { apply (proj2 (proj1 (filter_In f (k, g) mc) ltac:(rewrite F; now left))). }
        rewrite H in Hf. discriminate Hf.
      * intros Nk. apply Keys. now apply keys_filter_NoDup.
    + apply steps_nil_inv in S. subst m'. rewrite F, delete_loop_cons, Sg.
      now repeat split.
Qed.

End Runs.

(* ------------------------------------------------------------------ *)
(** ** Two successive runs *)

Lemma unmatched_frame (events : list Exchange.event) (e : Exchange.event) :
  In e events ->
  negb (existsb (String.eqb (Exchange.id e)) (map Exchange.id events)) = false.
Proof.
  intros He. apply negb_false_iff, existsb_exists.
  exists (Exchange.id e). split; [now apply in_map|apply String.eqb_refl].
Qed.

(** C3: when the calls of a first run have been applied to the destination
    mapping, a second run over the same source events makes no call at all.
    The source events have pairwise distinct identifiers, and the destination
    events pairwise distinct keys and ids. *)
Theorem second_run_issues_no_mutation (cfg : config) (events : list Exchange.event)
    (m m' : list (string * google_event)) :
  NoDup (map Exchange.id events) ->
  NoDup (Dict.keys m) ->
  NoDup (Destination.ids m) ->
  Destination.steps m (mutations (main cfg events m)) m' ->
  mutations (main cfg events m') = [].
Proof.
  intros Nu Nk Ni S. rewrite main_eq in S. unfold mutations at 1 in S. simpl in S.
  apply steps_app_inv in S as (ma & S1 & S2).
  destruct (first_loop_applied cfg events m m ma Nu Nk Ni (fun _ _ => eq_refl) S1)
    as (Nka & Nia & Hold & Frame).
  rewrite fold_pop_unmatched in S2 by exact Nk.
  pose (fk := fun k => negb (existsb (String.eqb k) (map Exchange.id events))).
  assert (F : filter (fun kv => fk (fst kv)) ma = unmatched events m).
  { apply Frame. intros e He. now apply unmatched_frame. }
  destruct (second_loop_applied (fun kv => fk (fst kv)) _ ma m' Nia F S2)
    as (Quiet & Frame2 & Keys).
  rewrite main_eq. unfold mutations at 1. simpl.
  rewrite sync_loop_in_sync; [|exact Nu|].
  - rewrite fold_pop_unmatched by (apply Keys, Nka). exact Quiet.
  - intros e He. destruct (Hold e He) as (g & G & E).
    exists g. split; [|exact E]. rewrite <- G.
    rewrite <- (get_filter_key (fun k => negb (fk k)) _ m')
      by (unfold fk; now rewrite unmatched_frame).
    rewrite <- (get_filter_key (fun k => negb (fk k)) _ ma)
      by (unfold fk; now rewrite unmatched_frame).
    now rewrite Frame2.
Qed.

Lemma second_run_issues_no_mutation_witness :
  let cfg := mk_config Datetime.utc None None "me@example.com" in
  let a := Exchange.mk_event "A" (Some "Lunch") None 0 3600 None [] in
  let b := Exchange.mk_event "B" None (Some "Room 1") 7200 93600 None [] in
  let m := [("A", mk_google_event "g1" (Some "A") (Some "Lunch") (Some "0a1b"));
            ("C", mk_google_event "g2" (Some "C") (Some "Gone") None)] in
  let m' := [("A", Destination.stored "g1" (transform_event cfg a));
             ("B", Destination.stored "g3" (transform_event cfg b))] in
  mutations (main cfg [a; b] m)
  = [Update "g1" (transform_event cfg a); Import (transform_event cfg b); Delete "g2"]
  /\ mutations (main cfg [a; b] m') = [].
Proof.
  cbv zeta. split; [vm_compute; reflexivity|].
  apply (second_run_issues_no_mutation
           (mk_config Datetime.utc None None "me@example.com")
           [Exchange.mk_event "A" (Some "Lunch") None 0 3600 None [];
            Exchange.mk_event "B" None (Some "Room 1") 7200 93600 None []]
           [("A", mk_google_event "g1" (Some "A") (Some "Lunch") (Some "0a1b"));
            ("C", mk_google_event "g2" (Some "C") (Some "Gone") None)]).
  - simpl. repeat constructor; simpl; intuition discriminate.
  - simpl. repeat constructor; simpl; intuition discriminate.
  - simpl. repeat constructor; simpl; intuition discriminate.
  - vm_compute.
    eapply Destination.steps_cons; [apply Destination.step_update|].
    eapply Destination.steps_cons;
      [apply (Destination.step_import _ _ "B" "g3");
       [reflexivity|simpl; intuition discriminate]|].
    eapply Destination.steps_cons; [apply Destination.step_delete|].
    apply Destination.steps_nil.
Defined.

(* ------------------------------------------------------------------ *)
(** ** Deletions of a run that meets no untitled leftover *)

Lemma deletions_app (i : string) (log1 log2 : list mutation) :
  deletions i (log1 ++ log2) = (deletions i log1 + deletions i log2)%nat.
Proof. unfold deletions. now rewrite filter_app, length_app. Qed.

Lemma sync_loop_no_delete (cfg : config) (events : list Exchange.event)
    (m : list (string * google_event)) (i : string) :
  deletions i (mutations (sync_loop cfg events m)) = 0%nat.
Proof.
  revert m. induction events as [|ev events IH]; intros m; [reflexivity|].
  rewrite sync_loop_cons. unfold mutations at 1. simpl.
  rewrite deletions_app, IH, sync_event_eq.
  destruct (Dict.get (Exchange.id ev) m) as [g|]; [|reflexivity].
  unfold mutations. simpl.
  now destruct (String.eqb (content_hash (transform_event cfg ev)) (stored_hash g)).
Qed.

Lemma delete_loop_titled (items : list (string * google_event)) :
  Forall (fun kv => summary (snd kv) <> None) items ->
  delete_loop items = (map (fun kv => Delete (id (snd kv))) items, Ok tt).
Proof.
  induction 1 as [|[k g] items Hg _ IH]; [reflexivity|].
  rewrite delete_loop_cons, IH. simpl in Hg.
  destruct (summary g); [reflexivity|contradiction].
Qed.

Lemma deletions_of_deletes (i : string) (items : list (string * google_event)) :
  deletions i (map (fun kv => Delete (id (snd kv))) items)
  = List.length (filter (fun kv => String.eqb i (id (snd kv))) items).
Proof.
  unfold deletions. induction items as [|[k g] items IH]; simpl; [reflexivity|].
  destruct (String.eqb i (id g)); simpl; now rewrite IH.
Qed.

Lemma id_absent_count (i : string) (items : list (string * google_event)) :
  ~ In i (Destination.ids items) ->
  List.length (filter (fun kv => String.eqb i (id (snd kv))) items) = 0%nat.
Proof.
  induction items as [|[k g] items IH]; simpl; [reflexivity|].
  intros H. destruct (String.eqb_spec i (id g)) as [->|_]; [tauto|].
  apply IH. tauto.
Qed.

Lemma id_present_count (kv : string * google_event)
    (items : list (string * google_event)) :
  NoDup (Destination.ids items) -> In kv items ->
  List.length (filter (fun x => String.eqb (id (snd kv)) (id (snd x))) items) = 1%nat.
Proof.
  induction items as [|[k g] items IH]; simpl; [contradiction|].
  intros N H. inversion N as [|? ? Hg Ni]; subst.
  destruct H as [<-|H].
  - simpl. rewrite String.eqb_refl. simpl. f_equal. now apply id_absent_count.
  - destruct (String.eqb_spec (id (snd kv)) (id g)) as [E|_]; [|now apply IH].
    exfalso. apply Hg. rewrite <- E. unfold Destination.ids.
    apply in_map_iff. now exists kv.
Qed.

(** X1: a run whose unmatched destination events all have a summary ends
    without an exception; it asks once for the deletion of every destination
    event whose identifier is no source identifier, and never for the
    deletion of a destination event that a source event matches. *)
Theorem titled_leftovers_deleted_once (cfg : config) (events : list Exchange.event)
    (m : list (string * google_event)) :
  NoDup (Dict.keys m) ->
  NoDup (Destination.ids m) ->
  Forall (fun kv => summary (snd kv) <> None) (unmatched events m) ->
  snd (main cfg events m) = Ok tt
  /\ forall k g, In (k, g) m ->
       deletions (id g) (mutations (main cfg events m))
       = if existsb (String.eqb k) (map Exchange.id events) then 0%nat else 1%nat.
Proof.
  intros Nk Ni T. rewrite main_eq, fold_pop_unmatched, delete_loop_titled by trivial.
  split; [reflexivity|]. intros k g H. unfold mutations at 1. cbn [fst].
  rewrite deletions_app, sync_loop_no_delete. unfold mutations. cbn [fst].
  rewrite deletions_of_deletes. simpl.
  destruct (existsb (String.eqb k) (map Exchange.id events)) eqn:E.
  - apply id_absent_count. intros Hin. unfold Destination.ids in Hin.
    apply in_map_iff in Hin as (kv & Eid & Hkv).
    apply filter_In in Hkv as [Hkv Hf].
    assert (kv = (k, g)) as ->
        by (apply (NoDup_map_inj_in (fun kv => id (snd kv)) m); assumption).
    simpl in Hf. rewrite E in Hf. discriminate Hf.
  - apply (id_present_count (k, g)).
    + now apply NoDup_map_filter.
    + apply filter_In. split; [exact H|]. simpl. now rewrite E.
Qed.

Lemma titled_leftovers_deleted_once_witness :
  let cfg := mk_config Datetime.utc None None "me@example.com" in
  let a := Exchange.mk_event "A" (Some "Lunch") None 0 3600 None [] in
  let m := [("A", mk_google_event "g1" (Some "A") (Some "Lunch") (Some "0a1b"));
            ("C", mk_google_event "g2" (Some "C") (Some "Gone") None)] in
  snd (main cfg [a] m) = Ok tt
  /\ deletions "g1" (mutations (main cfg [a] m)) = 0%nat
  /\ deletions "g2" (mutations (main cfg [a] m)) = 1%nat.
Proof.
  cbv zeta.
  pose proof (titled_leftovers_deleted_once
                (mk_config Datetime.utc None None "me@example.com")
                [Exchange.mk_event "A" (Some "Lunch") None 0 3600 None []]
                [("A", mk_google_event "g1" (Some "A") (Some "Lunch") (Some "0a1b"));
                 ("C", mk_google_event "g2" (Some "C") (Some "Gone") None)]) as H.
  destruct H as [Hok Hdel].
  - simpl. repeat constructor; simpl; intuition discriminate.
  - simpl. repeat constructor; simpl; intuition discriminate.
  - vm_compute. repeat constructor. discriminate.
  - split; [exact Hok|]. split.
    + apply (Hdel "A" _ (or_introl eq_refl)).
    + apply (Hdel "C" _ (or_intror (or_introl eq_refl))).
Defined.

(* ------------------------------------------------------------------ *)
(** ** The mapping of the destination events *)

Lemma get_set_other (k k' : string) (g : google_event)
    (m : list (string * google_event)) :
  k <> k' -> Dict.get k (Dict.set k' g m) = Dict.get k m.
Proof.
  intros N. induction m as [|[x w] m IH]; simpl.
  - destruct (String.eqb_spec k k'); [contradiction|reflexivity].
  - destruct (String.eqb_spec k' x) as [->|Nx]; simpl.
    + destruct (String.eqb_spec k x); [contradiction|reflexivity].
    + now rewrite IH.
Qed.

Lemma In_keys_set_iff (k : string) (g : google_event)
    (m : list (string * google_event)) (y : string) :
  In y (Dict.keys (Dict.set k g m)) <-> y = k \/ In y (Dict.keys m).
Proof.
  split; [apply In_keys_set|].
  induction m as [|[x w] m IH]; simpl.
  - intros [->|[]]. now left.
  - destruct (String.eqb_spec k x) as [->|N]; simpl; intuition.
Qed.

Lemma collector_fold (all items : list google_event)
    (d : list (string * google_event)) :
  incl items all ->
  NoDup (Dict.keys d) ->
  (forall k g, Dict.get k d = Some g ->
     iCalUID g = Some k /\ k <> EmptyString /\ In g all) ->
  let m :=
    fold_left
      (fun d e =>
         match iCalUID e with
         | Some k => if String.eqb k EmptyString then d else Dict.set k e d
         | None => d
         end) items d in
  NoDup (Dict.keys m)
  /\ (forall k g, Dict.get k m = Some g ->
        iCalUID g = Some k /\ k <> EmptyString /\ In g all)
  /\ (forall k, In k (Dict.keys d) -> In k (Dict.keys m))
  /\ (forall g k, In g items -> iCalUID g = Some k -> k <> EmptyString ->
        In k (Dict.keys m)).
Proof.
  revert d. induction items as [|e items IH]; intros d Hincl N P; cbv zeta; simpl.
  - split; [|split; [|split]]; trivial. intros g k [].
  - assert (Hi : incl items all) by (intros x Hx; apply Hincl; now right).
    assert (He : In e all) by (apply Hincl; now left).
    destruct (iCalUID e) as [k|] eqn:Ek.
    + destruct (String.eqb_spec k EmptyString) as [->|Nk].
      * destruct (IH d Hi N P) as (A & B & C & D). split; [|split; [|split]]; trivial.
        intros g k' [<-|Hg] Eg Ne; [congruence|now apply (D g)].
      * assert (P' : forall k' g, Dict.get k' (Dict.set k e d) = Some g ->
                        iCalUID g = Some k' /\ k' <> EmptyString /\ In g all).
        { intros k' g' G. destruct (String.eqb_spec k' k) as [->|Nk'].
          - rewrite get_set in G. injection G as <-. now repeat split.
          - rewrite get_set_other in G by exact Nk'. now apply P. }
        destruct (IH (Dict.set k e d) Hi (keys_set_NoDup k e d N) P')
          as (A & B & C & D).
        split; [|split; [|split]]; trivial.
        -- intros k' Hk'. apply C, In_keys_set_iff. now right.
        -- intros g k' [<-|Hg] Eg Ne; [|now apply (D g)].
           apply C, In_keys_set_iff. left. congruence.
    + destruct (IH d Hi N P) as (A & B & C & D). split; [|split; [|split]]; trivial.
      intros g k [<-|Hg] Eg Ne; [congruence|now apply (D g)].
Qed.

(** X3: the mapping built from the destination's events has pairwise distinct
    keys; each of its entries is one of the events, filed under its own
    iCalUID, which is not empty; and every non-empty iCalUID of an event is
    a key of the mapping.  An event with no iCalUID, or an empty one, is in
    no entry. *)
Theorem mapping_of_destination_events (items : list google_event) :
  let m := get_events_from_google_calendar items in
  NoDup (Dict.keys m)
  /\ (forall k g, Dict.get k m = Some g ->
        iCalUID g = Some k /\ k <> EmptyString /\ In g items)
  /\ (forall g k, In g items -> iCalUID g = Some k -> k <> EmptyString ->
        In k (Dict.keys m)).
Proof.
  cbv zeta. unfold get_events_from_google_calendar.
  destruct (collector_fold items items [] (incl_refl items) (NoDup_nil _))
    as (A & B & _ & D).
  - intros k g G. discriminate G.
  - split; [exact A|]. split; [exact B|exact D].
Qed.

(* ================================================================== *)
(** * Further properties of a run *)

(* ------------------------------------------------------------------ *)
(** ** The first loop, event by event *)

Lemma sync_loop_cons_log (cfg : config) (ev : Exchange.event)
    (events : list Exchange.event) (m : list (string * google_event)) :
  mutations (sync_loop cfg (ev :: events) m)
  = mutations (sync_event cfg m ev)
    ++ mutations (sync_loop cfg events (Dict.pop (Exchange.id ev) m)).
Proof. rewrite sync_loop_cons. reflexivity. Qed.

Lemma sync_event_log_get (cfg : config) (m m0 : list (string * google_event))
    (ev : Exchange.event) :
  Dict.get (Exchange.id ev) m = Dict.get (Exchange.id ev) m0 ->
  mutations (sync_event cfg m ev) = mutations (sync_event cfg m0 ev).
Proof.
  intros E. rewrite !sync_event_eq, E.
  now destruct (Dict.get (Exchange.id ev) m0).
Qed.

Lemma sync_loop_flat_map (cfg : config) (events : list Exchange.event)
    (m m0 : list (string * google_event)) :
  NoDup (map Exchange.id events) ->
  (forall e, In e events ->
     Dict.get (Exchange.id e) m = Dict.get (Exchange.id e) m0) ->
  mutations (sync_loop cfg events m)
  = flat_map (fun e => mutations (sync_event cfg m0 e)) events.
Proof.
  revert m. induction events as [|ev events IH]; intros m N Agree; [reflexivity|].
  rewrite sync_loop_cons_log. cbn [flat_map].
  inversion N as [|? ? Hev Nev]; subst.
  rewrite (sync_event_log_get cfg m m0 ev) by (apply Agree; now left).
  f_equal. apply IH; [exact Nev|].
  intros e He. rewrite get_pop_other; [apply Agree; now right|].
  intros E. apply Hev. rewrite <- E. now apply in_map.
Qed.

Lemma sync_loop_app (cfg : config) (pre post : list Exchange.event)
    (m : list (string * google_event)) :
  mutations (sync_loop cfg (pre ++ post) m)
  = mutations (sync_loop cfg pre m)
    ++ mutations (sync_loop cfg post
                    (fold_left (fun d e => Dict.pop (Exchange.id e) d) pre m)).
Proof.
  revert m. induction pre as [|ev pre IH]; intros m; [reflexivity|].
  rewrite <- app_comm_cons, !sync_loop_cons_log. cbn [fold_left].
  now rewrite IH, app_assoc.
Qed.

Lemma get_filter_key_out {V : Type} (fk : string -> bool) (k : string)
    (d : list (string * V)) :
  fk k = false -> Dict.get k (filter (fun kv => fk (fst kv)) d) = None.
Proof.
  intros F. induction d as [|[x w] d IH]; simpl; [reflexivity|].
  destruct (fk x) eqn:Fx; [|exact IH]. simpl.
  destruct (String.eqb_spec k x) as [->|_]; [congruence|exact IH].
Qed.



(** X5: a source event whose identifier already occurred earlier in the
    source list is imported, whatever the destination holds: the earlier
    event has taken the matching entry out of the working mapping. *)
Theorem repeated_identifier_is_imported (cfg : config)
    (pre post : list Exchange.event) (ev : Exchange.event)
    (m : list (string * google_event)) :
  NoDup (Dict.keys m) ->
  In (Exchange.id ev) (map Exchange.id pre) ->
  mutations (sync_loop cfg (pre ++ ev :: post) m)
  = mutations (sync_loop cfg pre m)
    ++ Import (transform_event cfg ev)
       :: mutations (sync_loop cfg post (unmatched pre m)).
Proof.
  intros Nk Hin. rewrite sync_loop_app, fold_pop_unmatched by exact Nk.
  f_equal. rewrite sync_loop_cons_log.
  assert (G : Dict.get (Exchange.id ev) (unmatched pre m) = None).
  { unfold unmatched.
    apply (get_filter_key_out
             (fun k => negb (existsb (String.eqb k) (map Exchange.id pre)))).
    apply negb_false_iff, existsb_exists. exists (Exchange.id ev).
    split; [exact Hin|apply String.eqb_refl]. }
  rewrite sync_event_eq, G, (pop_absent _ _ G). reflexivity.
Qed.

Lemma repeated_identifier_is_imported_witness :
  let cfg := mk_config Datetime.utc None None "me@example.com" in
  let a := Exchange.mk_event "A" (Some "Lunch") None 0 3600 None [] in
  let a' := Exchange.mk_event "A" (Some "Dinner") None 7200 10800 None [] in
  let m := [("A", mk_google_event "g1" (Some "A") (Some "Lunch") None)] in
  mutations (sync_loop cfg ([a] ++ a' :: []) m)
  = mutations (sync_loop cfg [a] m)
    ++ Import (transform_event cfg a') :: mutations (sync_loop cfg [] (unmatched [a] m)).
Proof.
  cbv zeta.
  apply (repeated_identifier_is_imported
           (mk_config Datetime.utc None None "me@example.com")
           [Exchange.mk_event "A" (Some "Lunch") None 0 3600 None []] []
           (Exchange.mk_event "A" (Some "Dinner") None 7200 10800 None [])
           [("A", mk_google_event "g1" (Some "A") (Some "Lunch") None)]).
  - simpl. repeat constructor; simpl; intuition discriminate.
  - simpl. now left.
Defined.

(* ------------------------------------------------------------------ *)
(** ** The second loop, and how a run ends *)

Lemma delete_loop_log (items : list (string * google_event)) :
  mutations (delete_loop items) = map delete_call (titled_prefix items).
Proof.
  induction items as [|[k g] items IH]; [reflexivity|].
  rewrite delete_loop_cons. cbn [titled_prefix snd].
  destruct (summary g); [|reflexivity].
  unfold mutations at 1. cbn [fst map]. now rewrite IH.
Qed.

Lemma delete_loop_end (items : list (string * google_event)) :
  (snd (delete_loop items) = Ok tt
   <-> Forall (fun kv => summary (snd kv) <> None) items)
  /\ (snd (delete_loop items) = Ok tt
      \/ snd (delete_loop items) = Raise (KeyError "summary")).
Proof.
  induction items as [|[k g] items [IH1 IH2]].
  - split; [|now left]. split; [constructor|reflexivity].
  - rewrite delete_loop_cons. destruct (summary g) eqn:S; cbn [snd].
    + split; [|exact IH2]. rewrite IH1. split.
      * intros F. constructor; [simpl; congruence|exact F].
      * intros F. now inversion F.
    + split; [|now right]. split; [discriminate|].
      intros F. inversion F as [|? ? H _]; subst. simpl in H. contradiction.
Qed.

Lemma In_titled_prefix (kv : string * google_event)
    (items : list (string * google_event)) :
  In kv (titled_prefix items) -> In kv items /\ summary (snd kv) <> None.
Proof.
  induction items as [|x items IH]; simpl; [contradiction|].
  destruct (summary (snd x)) eqn:S; [|contradiction].
  intros [<-|H]; [split; [now left|congruence]|].
  destruct (IH H). split; [now right|assumption].
Qed.

(** X6: a run makes the calls of the first loop, then one delete call for
    each unmatched destination event up to the first that has no summary,
    in the order of the mapping; no call of the first loop is a delete.  It
    ends without an exception exactly when every unmatched destination event
    has a summary, and otherwise with KeyError on the key summary. *)
Theorem run_stops_at_first_untitled_leftover (cfg : config)
    (events : list Exchange.event) (m : list (string * google_event)) :
  NoDup (Dict.keys m) ->
  mutations (main cfg events m)
  = mutations (sync_loop cfg events m)
    ++ map delete_call (titled_prefix (unmatched events m))
  /\ (forall i, deletions i (mutations (sync_loop cfg events m)) = 0%nat)
  /\ (snd (main cfg events m) = Ok tt
      <-> Forall (fun kv => summary (snd kv) <> None) (unmatched events m))
  /\ (snd (main cfg events m) = Ok tt
      \/ snd (main cfg events m) = Raise (KeyError "summary")).
Proof.
  intros Nk. rewrite main_eq, fold_pop_unmatched by exact Nk.
  unfold mutations at 1. cbn [fst snd]. rewrite delete_loop_log.
  split; [reflexivity|]. split; [apply sync_loop_no_delete|].
  apply delete_loop_end.
Qed.

Lemma run_stops_at_first_untitled_leftover_witness :
  let cfg := mk_config Datetime.utc None None "me@example.com" in
  let m := [("B", mk_google_event "g1" (Some "B") (Some "Old") None);
            ("C", mk_google_event "g2" (Some "C") None None);
            ("D", mk_google_event "g3" (Some "D") (Some "Past") None)] in
  mutations (main cfg [] m)
  = mutations (sync_loop cfg [] m) ++ map delete_call (titled_prefix (unmatched [] m))
  /\ (forall i, deletions i (mutations (sync_loop cfg [] m)) = 0%nat)
  /\ (snd (main cfg [] m) = Ok tt
      <-> Forall (fun kv => summary (snd kv) <> None) (unmatched [] m))
  /\ (snd (main cfg [] m) = Ok tt
      \/ snd (main cfg [] m) = Raise (KeyError "summary")).
Proof.
  cbv zeta.
  apply (run_stops_at_first_untitled_leftover
           (mk_config Datetime.utc None None "me@example.com") []
           [("B", mk_google_event "g1" (Some "B") (Some "Old") None);
            ("C", mk_google_event "g2" (Some "C") None None);
            ("D", mk_google_event "g3" (Some "D") (Some "Past") None)]).
  simpl. repeat constructor; simpl; intuition discriminate.
Defined.

Lemma first_loop_call_cause (cfg : config) (events : list Exchange.event)
    (m : list (string * google_event)) (c : mutation) :
  NoDup (map Exchange.id events) ->
  In c (mutations (sync_loop cfg events m)) ->
  match c with
  | Update i body =>
      exists e d, In e events /\ Dict.get (Exchange.id e) m = Some d
                  /\ i = id d /\ body = transform_event cfg e
                  /\ stored_hash d <> content_hash body
  | Import body =>
      exists e, In e events /\ Dict.get (Exchange.id e) m = None
                /\ body = transform_event cfg e
  | Delete _ => False
  end.
Proof.
  intros Nu H.
  rewrite (sync_loop_flat_map cfg events m m Nu (fun _ _ => eq_refl)) in H.
  apply in_flat_map in H as (e & He & H). rewrite sync_event_eq in H.
  unfold mutations in H.
  destruct (Dict.get (Exchange.id e) m) as [d|] eqn:G; cbn [fst] in H.
  - destruct (String.eqb_spec (content_hash (transform_event cfg e)) (stored_hash d))
      as [_|N]; [contradiction|].
    destruct H as [<-|[]]. exists e, d. repeat split; trivial. congruence.
  - destruct H as [<-|[]]. exists e. now repeat split.
Qed.

Lemma second_loop_call_cause (events : list Exchange.event)
    (m : list (string * google_event)) (c : mutation) :
  In c (map delete_call (titled_prefix (unmatched events m))) ->
  exists k d, c = Delete (id d) /\ In (k, d) m /\ ~ In k (map Exchange.id events).
Proof.
  intros H. apply in_map_iff in H as ([k d] & <- & H).
  apply In_titled_prefix in H as [H _]. apply filter_In in H as [H F].
  exists k, d. repeat split; trivial. simpl in F.
  apply negb_true_iff in F. intros Hin.
  assert (E : existsb (String.eqb k) (map Exchange.id events) = true)
    by (apply existsb_exists; exists k; split; [exact Hin|apply String.eqb_refl]).
  congruence.
Qed.



(* ------------------------------------------------------------------ *)
(** ** The destination after a run *)

Lemma steps_deletes_incl (items : list (string * google_event))
    (mc m' : list (string * google_event)) :
  Destination.steps mc (map delete_call items) m' -> incl m' mc.
Proof.
  revert mc. induction items as [|kv items IH]; intros mc S.
  - apply steps_nil_inv in S. subst. apply incl_refl.
  - inversion S as [|? mc1 ? ? ? S1 S2]; subst. inversion S1; subst.
    intros x Hx. apply (IH _ S2) in Hx. now apply filter_In in Hx as [Hx _].
Qed.

Lemma filter_none_all {A : Type} (f : A -> bool) (l : list A) :
  filter f l = [] -> filter (fun x => negb (f x)) l = l.
Proof.
  induction l as [|a l IH]; simpl; [reflexivity|].
  destruct (f a); [discriminate|]. intros H. simpl. now rewrite IH.
Qed.

Lemma In_keys_get {V : Type} (k : string) (d : list (string * V)) :
  In k (Dict.keys d) <-> exists v, Dict.get k d = Some v.
Proof.
  split.
  - intros H. destruct (Dict.get k d) as [v|] eqn:G; [now exists v|].
    now apply get_None_keys in G.
  - intros [v G]. apply get_In in G. apply (in_map fst) in G. exact G.
Qed.

(** X8: when the calls of a run have been applied to the destination, every
    source event is held there under its identifier with its content hash as
    the stored hash, also when the run ended with an exception; when the run
    ended without one, the keys of the destination mapping are exactly the
    source identifiers.  The source identifiers, the keys and the ids are
    pairwise distinct. *)
Theorem run_brings_destination_in_sync (cfg : config)
    (events : list Exchange.event) (m m' : list (string * google_event)) :
  NoDup (map Exchange.id events) ->
  NoDup (Dict.keys m) ->
  NoDup (Destination.ids m) ->
  Destination.steps m (mutations (main cfg events m)) m' ->
  NoDup (Dict.keys m')
  /\ (forall e, In e events ->
        exists d, Dict.get (Exchange.id e) m' = Some d
                  /\ stored_hash d = content_hash (transform_event cfg e))
  /\ (snd (main cfg events m) = Ok tt ->
      forall k, In k (Dict.keys m') <-> In k (map Exchange.id events)).
Proof.
  intros Nu Nk Ni S.
  pose proof (main_eq cfg events m) as M.
  rewrite fold_pop_unmatched in M by exact Nk. rewrite M in S |- *.
  unfold mutations at 1 in S. cbn [fst] in S. cbn [snd].
  apply steps_app_inv in S as (ma & S1 & S2).
  destruct (first_loop_applied cfg events m m ma Nu Nk Ni (fun _ _ => eq_refl) S1)
    as (Nka & Nia & Hold & Frame).
  pose (fk := fun k => negb (existsb (String.eqb k) (map Exchange.id events))).
  assert (F : filter (fun kv => fk (fst kv)) ma = unmatched events m).
  { apply Frame. intros e He. now apply unmatched_frame. }
  destruct (second_loop_applied (fun kv => fk (fst kv)) _ ma m' Nia F S2)
    as (Quiet & Frame2 & Keys).
  assert (Held : forall e, In e events ->
            exists d, Dict.get (Exchange.id e) m' = Some d
                      /\ stored_hash d = content_hash (transform_event cfg e)).
  { intros e He. destruct (Hold e He) as (g & G & E).
    exists g. split; [|exact E]. rewrite <- G.
    rewrite <- (get_filter_key (fun k => negb (fk k)) _ m')
      by (unfold fk; now rewrite unmatched_frame).
    rewrite <- (get_filter_key (fun k => negb (fk k)) _ ma)
      by (unfold fk; now rewrite unmatched_frame).
    now rewrite Frame2. }
  split; [now apply Keys|]. split; [exact Held|].
  intros Hok k. split.
  - intros Hk. apply delete_loop_end in Hok.
    rewrite delete_loop_log in S2, Quiet.
    assert (T : titled_prefix (unmatched events m) = unmatched events m).
    { clear - Hok. induction Hok as [|kv l H _ IH]; [reflexivity|].
      simpl. destruct (summary (snd kv)); [now rewrite IH|contradiction]. }
    rewrite T in S2. apply steps_deletes_incl in S2.
    assert (E : filter (fun kv => fk (fst kv)) m' = []).
    { assert (T' : titled_prefix (filter (fun kv => fk (fst kv)) m')
                   = filter (fun kv => fk (fst kv)) m').
      { assert (Ft : Forall (fun kv => summary (snd kv) <> None)
                       (filter (fun kv => fk (fst kv)) m')).
        { apply Forall_forall. intros kv Hkv. apply filter_In in Hkv as [Hkv Hf].
          apply (proj1 (Forall_forall _ _) Hok). rewrite <- F.
          apply filter_In. split; [now apply S2|exact Hf]. }
        clear - Ft. induction Ft as [|kv l H _ IH]; [reflexivity|].
        simpl. destruct (summary (snd kv)); [now rewrite IH|contradiction]. }
      rewrite T' in Quiet. now apply map_eq_nil in Quiet. }
    apply In_keys_get in Hk as [v G]. apply get_In in G.
    destruct (existsb (String.eqb k) (map Exchange.id events)) eqn:X.
    + apply existsb_exists in X as (x & Hx & Ex).
      apply String.eqb_eq in Ex. now subst.
    + exfalso. assert (Hin : In (k, v) (filter (fun kv => fk (fst kv)) m')).
      { apply filter_In. split; [exact G|]. unfold fk. simpl. now rewrite X. }
      rewrite E in Hin. contradiction.
  - intros Hk. apply in_map_iff in Hk as (e & <- & He).
    destruct (Held e He) as (d & G & _). apply In_keys_get. now exists d.
Qed.

Lemma run_brings_destination_in_sync_witness :
  let cfg := mk_config Datetime.utc None None "me@example.com" in
  let a := Exchange.mk_event "A" (Some "Lunch") None 0 3600 None [] in
  let b := Exchange.mk_event "B" None (Some "Room 1") 7200 93600 None [] in
  let m := [("A", mk_google_event "g1" (Some "A") (Some "Lunch") (Some "0a1b"));
            ("C", mk_google_event "g2" (Some "C") (Some "Gone") None)] in
  let m' := [("A", Destination.stored "g1" (transform_event cfg a));
             ("B", Destination.stored "g3" (transform_event cfg b))] in
  NoDup (Dict.keys m')
  /\ (forall e, In e [a; b] ->
        exists d, Dict.get (Exchange.id e) m' = Some d
                  /\ stored_hash d = content_hash (transform_event cfg e))
  /\ (snd (main cfg [a; b] m) = Ok tt ->
      forall k, In k (Dict.keys m') <-> In k (map Exchange.id [a; b])).
Proof.
  cbv zeta.
  apply (run_brings_destination_in_sync
           (mk_config Datetime.utc None None "me@example.com")
           [Exchange.mk_event "A" (Some "Lunch") None 0 3600 None [];
            Exchange.mk_event "B" None (Some "Room 1") 7200 93600 None []]
           [("A", mk_google_event "g1" (Some "A") (Some "Lunch") (Some "0a1b"));
            ("C", mk_google_event "g2" (Some "C") (Some "Gone") None)]).
  - simpl. repeat constructor; simpl; intuition discriminate.
  - simpl. repeat constructor; simpl; intuition discriminate.
  - simpl. repeat constructor; simpl; intuition discriminate.
  - vm_compute.
    eapply Destination.steps_cons; [apply Destination.step_update|].
    eapply Destination.steps_cons;
      [apply (Destination.step_import _ _ "B" "g3");
       [reflexivity|simpl; intuition discriminate]|].
    eapply Destination.steps_cons; [apply Destination.step_delete|].
    apply Destination.steps_nil.
Defined.

(* ================================================================== *)
(** * Further properties of the normaliser *)

(* ------------------------------------------------------------------ *)
(** ** The order of the source attendees *)

Lemma Permutation_filter_same {A : Type} (f : A -> bool) (l l' : list A) :
  Permutation l l' -> Permutation (filter f l) (filter f l').
Proof.
  induction 1 as [|x l l' P IH|x y l|l l' l'' P1 IH1 P2 IH2]; simpl.
  - constructor.
  - destruct (f x); [now constructor|exact IH].
  - destruct (f x), (f y); try apply Permutation_refl. apply perm_swap.
  - eapply perm_trans; eassumption.
Qed.

Lemma sorted_attendees_perm (cfg : config) (ev ev' : Exchange.event) :
  Permutation (Exchange.attendees ev) (Exchange.attendees ev') ->
  NoDup (CalendarAddress cfg
         :: map Exchange.email (filter valid_email (Exchange.attendees ev))) ->
  sorted email_key (attendees_of cfg ev) = sorted email_key (attendees_of cfg ev').
Proof.
  intros P N. apply sorted_perm_eq.
  - unfold attendees_of. apply Permutation_app_tail, Permutation_map.
    now apply Permutation_filter_same.
  - rewrite attendees_of_emails.
    apply (Permutation_NoDup (Permutation_cons_append _ _) N).
Qed.

(** X9: the normalised body, and with it the content hash, does not depend
    on the order in which the source lists the attendees, as long as the
    emails that pass the filter are pairwise distinct and none of them is
    the calendar's own address. *)
Theorem attendee_order_is_immaterial (cfg : config)
    (uid : string) (subject location : option string)
    (start end_ : Datetime.datetime) (organizer : option Exchange.organizer_t)
    (attendees attendees' : list Exchange.person) :
  Permutation attendees attendees' ->
  NoDup (CalendarAddress cfg :: map Exchange.email (filter valid_email attendees)) ->
  transform_event cfg
    (Exchange.mk_event uid subject location start end_ organizer attendees)
  = transform_event cfg
      (Exchange.mk_event uid subject location start end_ organizer attendees').
Proof.
  intros P N.
  pose proof (sorted_attendees_perm cfg
                (Exchange.mk_event uid subject location start end_ organizer attendees)
                (Exchange.mk_event uid subject location start end_ organizer attendees')
                P N) as E.
  unfold transform_event, body_before_hash, is_all_day.
  cbn [Exchange.id Exchange.subject Exchange.location Exchange.start Exchange.end_
       Exchange.organizer]. cbv zeta.
  now rewrite E.
Qed.

Lemma attendee_order_is_immaterial_witness :
  let cfg := mk_config Datetime.utc None None "me@example.com" in
  let al := Exchange.mk_person (Some "Al") "al@x.org" (Some "Accepted") in
  let bob := Exchange.mk_person (Some "Bob") "bob@x.org" None in
  transform_event cfg (Exchange.mk_event "A" (Some "Lunch") None 0 3600 None [al; bob])
  = transform_event cfg (Exchange.mk_event "A" (Some "Lunch") None 0 3600 None [bob; al]).
Proof.
  cbv zeta.
  apply (attendee_order_is_immaterial
           (mk_config Datetime.utc None None "me@example.com")
           "A" (Some "Lunch") None 0 3600 None).
  - apply perm_swap.
  - vm_compute. repeat constructor; simpl; intuition discriminate.
Defined.

(* ------------------------------------------------------------------ *)
(** ** What an attendee entry of the body is made of *)

Lemma response_status_range (r : option string) :
  In (response_status r) ["needsAction"; "accepted"; "tentative"; "declined"].
Proof.
  destruct r as [r|]; [|now left].
  unfold response_status, RESPONSE_MAPPING. simpl.
  repeat match goal with
  | |- context [String.eqb r ?k] => destruct (String.eqb r k); [simpl; tauto|]
  end.
  now left.
Qed.

(** X10: every entry of the attendees of a normalised body has an email and
    a responseStatus, the status being one of needsAction, accepted,
    tentative and declined; the entry is either made from a source attendee
    whose email passes the filter, or it is the calendar's own entry, which
    is accepted and has no displayName. *)
Theorem attendee_entries_are_well_formed (cfg : config) (ev : Exchange.event)
    (j : json) :
  In j (body_attendees (transform_event cfg ev)) ->
  exists d email status,
    j = JDict d
    /\ Dict.get "email" d = Some (JStr email)
    /\ Dict.get "responseStatus" d = Some (JStr status)
    /\ In status ["needsAction"; "accepted"; "tentative"; "declined"]
    /\ ((exists person, In person (Exchange.attendees ev)
                        /\ Re.re_match email_pattern (Exchange.email person) = true
                        /\ d = attendee_entry person)
        \/ (email = CalendarAddress cfg /\ status = "accepted"
            /\ Dict.get "displayName" d = None)).
Proof.
  rewrite transform_event_attendees, in_map_iff.
  intros (d & <- & H). apply In_sorted in H. unfold attendees_of in H.
  apply in_app_or in H as [H|[<-|[]]].
  - apply in_map_iff in H as (person & <- & H). apply filter_In in H as [Hin Hv].
    exists (attendee_entry person), (Exchange.email person),
      (response_status (Exchange.response person)).
    repeat split; trivial; [apply response_status_range|].
    left. now exists person.
  - exists (calendar_entry cfg), (CalendarAddress cfg), "accepted".
    repeat split; trivial; [simpl; tauto|]. right. now repeat split.
Qed.

Lemma attendee_entries_are_well_formed_witness :
  let cfg := mk_config Datetime.utc None None "me@example.com" in
  let bob := Exchange.mk_person (Some "Bob") "bob@x.org" (Some "Maybe") in
  let ev := Exchange.mk_event "A" (Some "Lunch") None 0 3600 None [bob] in
  exists d email status,
    JDict (attendee_entry bob) = JDict d
    /\ Dict.get "email" d = Some (JStr email)
    /\ Dict.get "responseStatus" d = Some (JStr status)
    /\ In status ["needsAction"; "accepted"; "tentative"; "declined"]
    /\ ((exists person, In person (Exchange.attendees ev)
                        /\ Re.re_match email_pattern (Exchange.email person) = true
                        /\ d = attendee_entry person)
        \/ (email = CalendarAddress cfg /\ status = "accepted"
            /\ Dict.get "displayName" d = None)).
Proof.
  cbv zeta.
  apply (attendee_entries_are_well_formed
           (mk_config Datetime.utc None None "me@example.com")
           (Exchange.mk_event "A" (Some "Lunch") None 0 3600 None
              [Exchange.mk_person (Some "Bob") "bob@x.org" (Some "Maybe")])).
  apply In_body_attendees. unfold attendees_of. simpl. now left.
Defined.

(* ------------------------------------------------------------------ *)
(** ** An event that ends when it starts *)

(** X11: an event whose end is its start has a duration of zero seconds,
    a multiple of a day, and is normalised as an all-day event: its start is
    the local date of the instant and its end the local date of the second
    before.  When the instant is a local midnight and the offset of the zone
    is the same one second before it, the end date is the day before the
    start date.  The instant lies from 0001-01-02T00:00:00 to
    9999-12-30T23:59:59 UTC and the offsets of the zone are below a day, so
    that every datetime computed on the way exists. *)
Theorem zero_length_event_is_all_day (cfg : config) (ev : Exchange.event) :
  Exchange.end_ ev = Exchange.start ev ->
  -62135510400 <= Exchange.start ev <= 253402214399 ->
  (forall x, -86400 < Timezone cfg x < 86400) ->
  let tz := Timezone cfg in
  let t := Exchange.start ev in
  let day n := Some (JDict [("date", JStr (Datetime.date_isoformat
                                            (Datetime.date_of_days n)))]) in
  Dict.get "start" (transform_event cfg ev) = day ((t + tz t) / 86400)
  /\ Dict.get "end" (transform_event cfg ev) = day ((t - 1 + tz (t - 1)) / 86400)
  /\ ((t + tz t) mod 86400 = 0 -> tz (t - 1) = tz t ->
      (t - 1 + tz (t - 1)) / 86400 = (t + tz t) / 86400 - 1).
Proof.
  intros E _ _. cbv zeta.
  assert (A : is_all_day ev = true)
    by (apply is_all_day_iff; rewrite E, Z.sub_diag; reflexivity).
  split; [|split].
  - unfold transform_event.
    generalize (hash_event (body_before_hash cfg ev)) as h.
    unfold body_before_hash. now rewrite A.
  - unfold transform_event.
    generalize (hash_event (body_before_hash cfg ev)) as h.
    unfold body_before_hash. rewrite A, E. reflexivity.
  - intros Hmid Htz. rewrite Htz.
    replace (Exchange.start ev - 1 + Timezone cfg (Exchange.start ev))
      with (Exchange.start ev + Timezone cfg (Exchange.start ev) - 1) by lia.
    now apply day_before_midnight.
Qed.

Lemma zero_length_event_is_all_day_witness :
  let cfg := mk_config Datetime.utc None None "me@example.com" in
  let ev := Exchange.mk_event "A" (Some "Note") None 1704067200 1704067200 None [] in
  Dict.get "start" (transform_event cfg ev) = Some (JDict [("date", JStr "2024-01-01")])
  /\ Dict.get "end" (transform_event cfg ev) = Some (JDict [("date", JStr "2023-12-31")]).
Proof.
  cbv zeta.
  assert (R : -62135510400 <= 1704067200 <= 253402214399) by lia.
  assert (O : forall x : Z, -86400 < Datetime.utc x < 86400)
    by (intros x; unfold Datetime.utc; lia).
  pose proof (zero_length_event_is_all_day
                (mk_config Datetime.utc None None "me@example.com")
                (Exchange.mk_event "A" (Some "Note") None 1704067200 1704067200 None [])
                eq_refl R O) as H.
  cbv zeta in H. destruct H as (Hs & He & _).
  split; [exact Hs|exact He].
Defined.

(* ------------------------------------------------------------------ *)
(** ** Destination events that share an identifier *)

Lemma collector_fold_right (items : list google_event) :
  get_events_from_google_calendar items
  = fold_right
      (fun e d =>
         match iCalUID e with
         | Some k => if String.eqb k EmptyString then d else Dict.set k e d
         | None => d
         end) [] (rev items).
Proof.
  unfold get_events_from_google_calendar. symmetry.
  apply (fold_left_rev_right
           (fun (e : google_event) (d : list (string * google_event)) =>
              match iCalUID e with
              | Some k => if String.eqb k EmptyString then d else Dict.set k e d
              | None => d
              end)).
Qed.

(** X12: under a non-empty identifier the mapping holds the last of the
    listed destination events that has this identifier, and nothing when
    there is none: of several events with one identifier, such as the
    instances of a recurring event, only the last is seen by the
    reconciliation. *)
Theorem mapping_keeps_last_event_of_identifier (items : list google_event)
    (k : string) :
  k <> EmptyString ->
  Dict.get k (get_events_from_google_calendar items)
  = find (fun e => match iCalUID e with
                   | Some k' => String.eqb k' k
                   | None => false
                   end) (rev items).
Proof.
  intros Nk. rewrite collector_fold_right.
  induction (rev items) as [|e l IH]; [reflexivity|].
  cbn [fold_right find]. destruct (iCalUID e) as [k'|]; [|exact IH].
  destruct (String.eqb_spec k' EmptyString) as [->|Nk'].
  - destruct (String.eqb_spec EmptyString k) as [E|_]; [congruence|exact IH].
  - destruct (String.eqb_spec k' k) as [->|N].
    + apply get_set.
    + rewrite get_set_other by congruence. exact IH.
Qed.

Lemma mapping_keeps_last_event_of_identifier_witness :
  let first := mk_google_event "g1" (Some "R") (Some "Standup") (Some "0a1b") in
  let second := mk_google_event "g2" (Some "R") (Some "Standup") (Some "0a1b") in
  Dict.get "R" (get_events_from_google_calendar [first; second])
  = find (fun e => match iCalUID e with
                   | Some k' => String.eqb k' "R"
                   | None => false
                   end) (rev [first; second]).
Proof.
  cbv zeta.
  apply (mapping_keeps_last_event_of_identifier
           [mk_google_event "g1" (Some "R") (Some "Standup") (Some "0a1b");
            mk_google_event "g2" (Some "R") (Some "Standup") (Some "0a1b")] "R").
  discriminate.
Defined.

(* ================================================================== *)
(** * The serialisation that is hashed *)

(* ------------------------------------------------------------------ *)
(** ** Strings and their prefixes *)

Lemma string_app_assoc (a b c : string) :
  ((a ++ b) ++ c)%string = (a ++ (b ++ c))%string.
Proof. induction a as [|x a IH]; simpl; [reflexivity|now rewrite IH]. Qed.

Lemma string_app_inv_head (a x y : string) :
  (a ++ x)%string = (a ++ y)%string -> x = y.
Proof. induction a as [|c a IH]; simpl; [trivial|]. intros [= H]. now apply IH. Qed.

Lemma is_prefix_app (a b : string) :
  is_prefix a b = true -> exists z, b = (a ++ z)%string.
Proof.
  revert b. induction a as [|x a IH]; intros b H.
  - now exists b.
  - destruct b as [|y b]; [discriminate|]. simpl in H.
    apply andb_true_iff in H as [E H]. apply Ascii.eqb_eq in E. subst y.
    destruct (IH b H) as [z ->]. now exists z.
Qed.

Lemma app_eq_prefix (a x b y : string) :
  (a ++ x)%string = (b ++ y)%string ->
  is_prefix a b = true \/ is_prefix b a = true.
Proof.
  revert b. induction a as [|c a IH]; intros b H; [now left|].
  destruct b as [|d b]; [now right|].
  simpl in H. injection H as -> H. simpl. rewrite Ascii.eqb_refl. simpl.
  now apply IH.
Qed.

(* ------------------------------------------------------------------ *)
(** ** The escapes of the characters form a prefix code *)

Lemma In_all_ascii (c : ascii) : In c all_ascii.
Proof.
  unfold all_ascii. rewrite <- (ascii_nat_embedding c).
  apply in_map, in_seq. pose proof (nat_ascii_bounded c). lia.
Qed.

Lemma escapes_prefix_free_true : escapes_prefix_free = true.
Proof. vm_compute. reflexivity. Qed.

Lemma escapes_quote_free_true : escapes_quote_free = true.
Proof. vm_compute. reflexivity. Qed.

Lemma escape_char_prefix (c1 c2 : ascii) :
  is_prefix (Json.escape_char c1) (Json.escape_char c2) = true -> c1 = c2.
Proof.
  intros H. pose proof escapes_prefix_free_true as F. unfold escapes_prefix_free in F.
  rewrite forallb_forall in F. specialize (F c1 (In_all_ascii c1)).
  rewrite forallb_forall in F. specialize (F c2 (In_all_ascii c2)).
  rewrite H in F. simpl in F. now apply Ascii.eqb_eq.
Qed.

Lemma escape_char_inj (c1 c2 : ascii) (x y : string) :
  (Json.escape_char c1 ++ x)%string = (Json.escape_char c2 ++ y)%string ->
  c1 = c2 /\ x = y.
Proof.
  intros H. assert (c1 = c2) as <-.
  { destruct (app_eq_prefix _ _ _ _ H) as [P|P]; apply escape_char_prefix in P;
      congruence. }
  split; [reflexivity|now apply string_app_inv_head in H].
Qed.

Lemma escape_char_no_quote (c : ascii) (x y : string) :
  (Json.escape_char c ++ x)%string <> String Json.dquote y.
Proof.
  pose proof escapes_quote_free_true as F. unfold escapes_quote_free in F.
  rewrite forallb_forall in F. specialize (F c (In_all_ascii c)).
  destruct (Json.escape_char c) as [|a s]; [discriminate|].
  simpl. intros [= -> _]. now rewrite Ascii.eqb_refl in F.
Qed.

Lemma escape_inj (s1 s2 r1 r2 : string) :
  (Json.escape s1 ++ String Json.dquote r1)%string
  = (Json.escape s2 ++ String Json.dquote r2)%string ->
  s1 = s2 /\ r1 = r2.
Proof.
  revert s2. induction s1 as [|c1 s1 IH]; intros [|c2 s2] H.
  - simpl in H. now injection H as ->.
  - simpl in H. rewrite string_app_assoc in H. symmetry in H.
    now apply escape_char_no_quote in H.
  - simpl in H. rewrite string_app_assoc in H.
    now apply escape_char_no_quote in H.
  - cbn [Json.escape] in H. rewrite !string_app_assoc in H.
    apply escape_char_inj in H as [-> H]. apply IH in H as [-> ->]. now split.
Qed.

Lemma encode_str_inj (s1 s2 r1 r2 : string) :
  (Json.encode_str s1 ++ r1)%string = (Json.encode_str s2 ++ r2)%string ->
  s1 = s2 /\ r1 = r2.
Proof.
  unfold Json.encode_str. simpl. rewrite !string_app_assoc. simpl.
  intros [= H]. now apply escape_inj.
Qed.

(* ------------------------------------------------------------------ *)
(** ** Sequences of elements between brackets *)

Lemma seq_rest_app (close r : string) (xs : list string) :
  (seq_rest close xs ++ r)%string = seq_rest (close ++ r) xs.
Proof.
  induction xs as [|x xs IH]; simpl; [reflexivity|].
  now rewrite string_app_assoc, IH.
Qed.

Lemma seq_text_app (close r : string) (xs : list string) :
  (seq_text close xs ++ r)%string = seq_text (close ++ r) xs.
Proof.
  destruct xs as [|x xs]; simpl; [reflexivity|].
  now rewrite string_app_assoc, seq_rest_app.
Qed.

Lemma concat_seq_text (close : string) (xs : list string) :
  (String.concat ", " xs ++ close)%string = seq_text close xs.
Proof.
  destruct xs as [|x xs]; [reflexivity|]. revert x.
  induction xs as [|y xs IH]; intros x; [reflexivity|].
  change (String.concat ", " (x :: y :: xs))
    with (x ++ ", " ++ String.concat ", " (y :: xs))%string.
  rewrite !string_app_assoc, IH. reflexivity.
Qed.

Section Sequences.
Context {A : Type} (f : A -> string) (cl : ascii).
Hypothesis f_not_close : forall y r r', (f y ++ r)%string <> String cl r'.
Hypothesis close_not_comma : cl <> ","%char.

Lemma seq_rest_inj (l1 : list A) :
  (forall x, In x l1 -> forall y r1 r2,
     (f x ++ r1)%string = (f y ++ r2)%string -> x = y /\ r1 = r2) ->
  forall l2 c1 c2,
    seq_rest (String cl c1) (map f l1) = seq_rest (String cl c2) (map f l2) ->
    l1 = l2 /\ c1 = c2.
Proof.
  induction l1 as [|x l1 IH]; intros Hf [|y l2] c1 c2 H; simpl in H.
  - now injection H as ->.
  - injection H as H _. now subst cl.
  - injection H as H _. now subst cl.
  - injection H as H. apply Hf in H as [-> H]; [|now left].
    apply IH in H as [-> ->]; [now split|]. intros z Hz. apply Hf. now right.
Qed.

Lemma seq_text_inj (l1 : list A) :
  (forall x, In x l1 -> forall y r1 r2,
     (f x ++ r1)%string = (f y ++ r2)%string -> x = y /\ r1 = r2) ->
  forall l2 c1 c2,
    seq_text (String cl c1) (map f l1) = seq_text (String cl c2) (map f l2) ->
    l1 = l2 /\ c1 = c2.
Proof.
  intros Hf [|y l2] c1 c2 H; destruct l1 as [|x l1]; simpl in H.
  - now injection H as ->.
  - now apply f_not_close in H.
  - symmetry in H. now apply f_not_close in H.
  - apply Hf in H as [-> H]; [|now left].
    apply seq_rest_inj in H as [-> ->]; [now split|].
    intros z Hz. apply Hf. now right.
Qed.

End Sequences.

(* ------------------------------------------------------------------ *)
(** ** The text of a value determines the value *)

Lemma render_not_close (j : json) (r r' : string) :
  (render j ++ r)%string <> String "]" r'.
Proof.
  destruct j as [|[|]|s|l|d]; simpl; discriminate.
Qed.

Lemma item_not_close (kv : string * string) (r r' : string) :
  (Json.item kv ++ r)%string <> String "}" r'.
Proof. unfold Json.item, Json.encode_str. simpl. discriminate. Qed.

Lemma render_inj (j1 : json) :
  forall j2 r1 r2,
    (render j1 ++ r1)%string = (render j2 ++ r2)%string -> j1 = j2 /\ r1 = r2.
Proof.
  induction j1 as [|b1|s1|l1 IH|d1 IH] using json_induction;
    intros j2 r1 r2 H.
  - destruct j2 as [|[|]|s2|l2|d2]; simpl in H; try discriminate.
    now injection H as ->.
  - destruct b1, j2 as [|[|]|s2|l2|d2]; simpl in H; try discriminate;
      now injection H as ->.
  - destruct j2 as [|[|]|s2|l2|d2];
      try (simpl in H; unfold Json.encode_str in H; simpl in H; discriminate).
    cbn [render] in H. apply encode_str_inj in H as [-> ->]. now split.
  - destruct j2 as [|[|]|s2|l2|d2];
      try (simpl in H; unfold Json.encode_str in H; simpl in H; discriminate).
    cbn [render] in H. simpl in H. injection H as H.
    rewrite !seq_text_app in H. simpl in H.
    apply (seq_text_inj render "]"%char) in H as [-> ->]; [now split| | |].
    + intros y r r'. apply render_not_close.
    + discriminate.
    + intros x Hx. apply (proj1 (Forall_forall _ _) IH x Hx).
  - destruct j2 as [|[|]|s2|l2|d2];
      try (simpl in H; unfold Json.encode_str in H; simpl in H; discriminate).
    cbn [render] in H. simpl in H. injection H as H.
    rewrite !seq_text_app in H. simpl in H.
    apply (seq_text_inj (fun kv => Json.item (fst kv, render (snd kv))) "}"%char)
      in H as [-> ->]; [now split| | |].
    + intros y r r'. apply item_not_close.
    + discriminate.
    + intros [k1 v1] Hx [k2 v2] x1 x2 E. unfold Json.item in E.
      cbn [fst snd] in E.
      rewrite !string_app_assoc in E. apply encode_str_inj in E as [-> E].
      simpl in E. injection E as E.
      pose proof (proj1 (Forall_forall _ _) IH (k2, v1) Hx) as IHv.
      cbn [snd] in IHv. apply IHv in E as [-> ->]. now split.
Qed.

(* ------------------------------------------------------------------ *)
(** ** [json.dumps] writes the value with its keys in order *)

Lemma insert_by_map_snd {V W : Type} (g : V -> W) (kv : string * V)
    (l : list (string * V)) :
  insert_by fst (fst kv, g (snd kv)) (map (fun x => (fst x, g (snd x))) l)
  = map (fun x => (fst x, g (snd x))) (insert_by fst kv l).
Proof.
  induction l as [|y l IH]; simpl; [reflexivity|].
  destruct (String.leb (fst kv) (fst y)); simpl; [reflexivity|now rewrite IH].
Qed.

Lemma sorted_map_snd {V W : Type} (g : V -> W) (l : list (string * V)) :
  sorted fst (map (fun x => (fst x, g (snd x))) l)
  = map (fun x => (fst x, g (snd x))) (sorted fst l).
Proof.
  induction l as [|kv l IH]; simpl; [reflexivity|].
  now rewrite IH, insert_by_map_snd.
Qed.

Lemma dumps_render_canon (j : json) : Json.dumps j = render (canon j).
Proof.
  induction j as [|b|s|l IH|d IH] using json_induction; try reflexivity.
  - cbn [Json.dumps canon render].
    rewrite <- concat_seq_text, map_map.
    assert (E : map Json.dumps l = map (fun x => render (canon x)) l).
    { apply map_ext_in. intros x Hx. apply (proj1 (Forall_forall _ _) IH x Hx). }
    now rewrite E.
  - cbn [Json.dumps canon render].
    rewrite <- concat_seq_text.
    assert (E : map Json.item
                  (sorted fst (map (fun kv => (fst kv, Json.dumps (snd kv))) d))
                = map (fun kv => Json.item (fst kv, render (snd kv)))
                    (sorted fst (map (fun kv => (fst kv, canon (snd kv))) d))).
    { rewrite !sorted_map_snd, !map_map. apply map_ext_in.
      intros [k v] Hx. cbn [fst snd]. do 2 f_equal.
      apply In_sorted in Hx. apply (proj1 (Forall_forall _ _) IH (k, v) Hx). }
    now rewrite E.
Qed.

Lemma dumps_render_canon_eq (j1 j2 : json) :
  Json.dumps j1 = Json.dumps j2 -> canon j1 = canon j2.
Proof.
  rewrite !dumps_render_canon. intros H.
  assert (E : (render (canon j1) ++ EmptyString)%string
              = (render (canon j2) ++ EmptyString)%string) by now rewrite H.
  now apply render_inj in E as [E _].
Qed.


(* ------------------------------------------------------------------ *)
(** ** The text that is hashed determines the normalised body *)

Lemma canon_attendee (cfg : config) (ev : Exchange.event) (d : list (string * json)) :
  In d (attendees_of cfg ev) -> canon (JDict d) = JDict d.
Proof.
  unfold attendees_of. intros H. apply in_app_or in H as [H|[<-|[]]].
  - apply in_map_iff in H as (person & <- & _). unfold attendee_entry.
    now destruct (Exchange.name person).
  - reflexivity.
Qed.

Lemma canon_body_values (cfg : config) (ev : Exchange.event) (kv : string * json) :
  In kv (body_before_hash cfg ev) -> canon (snd kv) = snd kv.
Proof.
  assert (A : canon (JList (map JDict (sorted email_key (attendees_of cfg ev))))
              = JList (map JDict (sorted email_key (attendees_of cfg ev)))).
  { cbn [canon]. rewrite map_map. f_equal. apply map_ext_in.
    intros d Hd. apply In_sorted in Hd. now apply (canon_attendee cfg ev). }
  assert (O : forall o : option string, canon (str_or_none o) = str_or_none o)
    by now intros [s|].
  unfold body_before_hash.
  destruct (is_all_day ev); cbv zeta; cbn [Dict.set String.eqb Ascii.eqb Bool.eqb];
    intros H; repeat (destruct H as [<-|H]); try contradiction; cbn [snd];
    try apply O; try exact A; try reflexivity;
    destruct (Exchange.organizer ev) as [[[n|] [e|]]|]; reflexivity.
Qed.

Lemma canon_body (cfg : config) (ev : Exchange.event) :
  canon (JDict (body_before_hash cfg ev))
  = JDict (sorted fst (body_before_hash cfg ev)).
Proof.
  cbn [canon]. do 2 f_equal.
  rewrite <- (map_id (body_before_hash cfg ev)) at 2. apply map_ext_in.
  intros [k v] H. cbn [fst snd]. f_equal. now apply (canon_body_values cfg ev (k, v)).
Qed.

Lemma perm_same_keys_eq {V : Type} (l1 l2 : list (string * V)) :
  Permutation l1 l2 -> map fst l1 = map fst l2 -> NoDup (map fst l1) -> l1 = l2.
Proof.
  revert l2. induction l1 as [|[k v] l1 IH]; intros [|[k' v'] l2] P K N;
    try discriminate; [reflexivity|].
  simpl in K. injection K as <- K. inversion N as [|? ? Hk Nl]; subst.
  assert (v = v') as <-.
  { assert (H : In (k, v) ((k, v') :: l2)) by (apply (Permutation_in _ P); now left).
    destruct H as [[= ->]|H]; [reflexivity|].
    exfalso. apply Hk. rewrite K. apply (in_map fst) in H. exact H. }
  f_equal. apply IH; trivial. now apply Permutation_cons_inv in P.
Qed.

(** X14: two source events whose texts hold only characters below U+0100,
    the characters of [string], have the same text hashed exactly when they
    have the same normalised body: whatever a change of the source does to
    the body sent to the destination, it does to the text that is hashed,
    and the content hash of a changed body is the digest of another text. *)
Theorem hashed_text_determines_body (cfg cfg' : config) (ev ev' : Exchange.event) :
  Json.dumps (JDict (body_before_hash cfg ev))
  = Json.dumps (JDict (body_before_hash cfg' ev'))
  <-> transform_event cfg ev = transform_event cfg' ev'.
Proof.
  split.
  - intros H. apply dumps_render_canon_eq in H.
    rewrite !canon_body in H. injection H as H.
    assert (E : body_before_hash cfg ev = body_before_hash cfg' ev').
    { apply perm_same_keys_eq.
      - eapply perm_trans; [apply sorted_perm|]. rewrite H.
        apply Permutation_sym, sorted_perm.
      - fold (Dict.keys (body_before_hash cfg ev)).
        fold (Dict.keys (body_before_hash cfg' ev')).
        now rewrite !body_before_hash_keys.
      - apply body_before_hash_keys_NoDup. }
    unfold transform_event. now rewrite E.
  - intros H. rewrite <- (transform_event_pop_description cfg ev),
      <- (transform_event_pop_description cfg' ev'). now rewrite H.
Qed.

(* ------------------------------------------------------------------ *)
(** ** Attendees that share an email *)

Lemma filter_insert_by {A : Type} (key : A -> string) (k : string) (x : A)
    (l : list A) :
  filter (fun y => String.eqb (key y) k) (insert_by key x l)
  = filter (fun y => String.eqb (key y) k) (x :: l).
Proof.
  induction l as [|y l IH]; [reflexivity|].
  cbn [insert_by]. destruct (String.leb (key x) (key y)) eqn:L; [reflexivity|].
  cbn [filter] in *. rewrite IH.
  destruct (String.eqb_spec (key x) k) as [Ex|_]; [|reflexivity].
  destruct (String.eqb_spec (key y) k) as [Ey|_]; [|reflexivity].
  exfalso. rewrite Ex, <- Ey in L.
  destruct (String.leb_total (key y) (key y)); congruence.
Qed.

Lemma filter_sorted {A : Type} (key : A -> string) (k : string) (l : list A) :
  filter (fun y => String.eqb (key y) k) (sorted key l)
  = filter (fun y => String.eqb (key y) k) l.
Proof.
  induction l as [|x l IH]; [reflexivity|].
  cbn [sorted fold_right]. fold (sorted key l).
  rewrite filter_insert_by. cbn [filter]. now rewrite IH.
Qed.

(** X15: the entries of the body that carry one and the same email stand in
    the order in which the source lists the attendees, and the calendar's
    own entry stands after the source attendees that carry its address: the
    sort by email keeps the order of equal emails. *)
Theorem equal_emails_keep_source_order (cfg : config) (ev : Exchange.event)
    (email : string) :
  filter (fun j => String.eqb (entry_email j) email)
         (body_attendees (transform_event cfg ev))
  = map JDict
      (map attendee_entry
         (filter (fun person => valid_email person
                                && String.eqb (Exchange.email person) email)
                 (Exchange.attendees ev))
       ++ (if String.eqb (CalendarAddress cfg) email then [calendar_entry cfg] else [])).
Proof.
  rewrite transform_event_attendees.
  assert (M : forall l : list (list (string * json)),
            filter (fun j => String.eqb (entry_email j) email) (map JDict l)
            = map JDict (filter (fun d => String.eqb (email_key d) email) l)).
  { induction l as [|d l IH]; [reflexivity|]. simpl.
    destruct (String.eqb (email_key d) email); simpl; now rewrite IH. }
  rewrite M, filter_sorted. f_equal. unfold attendees_of.
  rewrite filter_app. f_equal.
  induction (Exchange.attendees ev) as [|p l IH]; [reflexivity|].
  cbn [filter]. destruct (valid_email p); cbn [andb map filter]; [|exact IH].
  rewrite email_key_attendee_entry.
  destruct (String.eqb (Exchange.email p) email); cbn [map]; now rewrite IH.
Qed.

(* ================================================================== *)
(** * The service of the destination *)

(** X16: a call of [init_google_calendar_service] leaves the service it
    returns in the global; a call that finds the global set asks nothing of
    the outside and returns that service again, whatever the credential
    store holds by then.  A call that finds the global empty reads the store
    once and builds the service once, from the stored credentials when they
    are there and valid, and from those of the consent flow otherwise; the
    consent flow runs in no other case. *)
Theorem service_is_built_once (credentials service : Type)
    (invalid : credentials -> bool) (build : credentials -> service)
    (w w' : Service.world credentials) (g : option service) :
  let first := Service.init_google_calendar_service invalid build w g in
  let again := Service.init_google_calendar_service invalid build w' (snd first) in
  snd first = Some (snd (fst first))
  /\ again = ([], snd (fst first), snd first)
  /\ (In Service.RunFlow (fst (fst first))
      <-> g = None
          /\ match Service.stored w with
             | Some c => invalid c = true
             | None => True
             end)
  /\ (g = None ->
      exists c,
        snd (fst first) = build c
        /\ List.length (filter (fun a => match a with
                                         | Service.Build _ => true
                                         | _ => false
                                         end) (fst (fst first))) = 1%nat
        /\ In (Service.Build c) (fst (fst first))
        /\ hd_error (fst (fst first)) = Some Service.StoreGet
        /\ match Service.stored w with
           | Some c' => if invalid c' then c = Service.consent w else c = c'
           | None => c = Service.consent w
           end).
Proof.
  cbv zeta. unfold Service.init_google_calendar_service.
  destruct g as [s|].
  - cbn. split; [reflexivity|]. split; [reflexivity|].
    split; [|intros E; discriminate E].
    split; [intros []|intros [E _]; discriminate E].
  - destruct (Service.stored w) as [c|]; [destruct (invalid c) eqn:I|]; cbn.
    + split; [reflexivity|]. split; [reflexivity|]. split.
      * split; [intros _; now split|intros _; do 2 right; now left].
      * intros _. exists (Service.consent w).
        split; [reflexivity|]. split; [reflexivity|].
        split; [do 4 right; now left|]. now split.
    + split; [reflexivity|]. split; [reflexivity|]. split.
      * split; [intros [E|[E|[]]]; discriminate E|intros [_ E]; discriminate E].
      * intros _. exists c.
        split; [reflexivity|]. split; [reflexivity|].
        split; [right; now left|]. now split.
    + split; [reflexivity|]. split; [reflexivity|]. split.
      * split; [intros _; now split|intros _; do 2 right; now left].
      * intros _. exists (Service.consent w).
        split; [reflexivity|]. split; [reflexivity|].
        split; [do 4 right; now left|]. now split.
Qed.

(* ================================================================== *)
(** * The destination events that the mapping leaves out *)

Lemma In_get {V : Type} (k : string) (v : V) (d : list (string * V)) :
  NoDup (Dict.keys d) -> In (k, v) d -> Dict.get k d = Some v.
Proof.
  induction d as [|[x w] d IH]; simpl; [contradiction|].
  intros N H. inversion N as [|? ? Hx Nd]; subst.
  destruct H as [[= -> ->]|H].
  - now rewrite String.eqb_refl.
  - destruct (String.eqb_spec k x) as [->|_]; [|now apply IH].
    exfalso. apply Hx. apply (in_map fst) in H. exact H.
Qed.

Lemma collector_entries (items : list google_event) :
  NoDup (Dict.keys (get_events_from_google_calendar items))
  /\ forall k g, Dict.get k (get_events_from_google_calendar items) = Some g ->
       In g items.
Proof.
  unfold get_events_from_google_calendar.
  destruct (collector_fold items items [] (incl_refl items) (NoDup_nil _))
    as (A & B & _ & _).
  - intros k g G. discriminate G.
  - split; [exact A|]. intros k g G. now apply B in G.
Qed.

(** X17: a destination event that is not an entry of the mapping, because
    it has no identifier, an empty one, or the identifier of an event listed
    after it, is never updated and never deleted by a run over the mapping.
    The source identifiers and the ids of the listed destination events are
    pairwise distinct. *)
Theorem unmapped_events_are_left_alone (cfg : config)
    (events : list Exchange.event) (items : list google_event) (g : google_event) :
  NoDup (map Exchange.id events) ->
  NoDup (map id items) ->
  In g items ->
  (forall k, Dict.get k (get_events_from_google_calendar items) <> Some g) ->
  forall c, In c (mutations (main cfg events (get_events_from_google_calendar items))) ->
    c <> Delete (id g) /\ forall body, c <> Update (id g) body.
Proof.
  intros Nu Ni Hg Out c Hc.
  destruct (collector_entries items) as [Nk Items].
  assert (Same : forall k d, Dict.get k (get_events_from_google_calendar items) = Some d ->
                   id d <> id g).
  { intros k d G E. apply (Out k). rewrite G. f_equal.
    apply (NoDup_map_inj_in id items); trivial. now apply (Items k). }
  rewrite main_eq, fold_pop_unmatched in Hc by exact Nk.
  unfold mutations at 1 in Hc. cbn [fst] in Hc. rewrite delete_loop_log in Hc.
  apply in_app_or in Hc as [Hc|Hc].
  - apply (first_loop_call_cause cfg events _ c Nu) in Hc.
    split; [intros ->; contradiction|].
    intros body ->. destruct Hc as (e & d & _ & G & E & _).
    apply (Same _ d G). congruence.
  - apply second_loop_call_cause in Hc as (k & d & -> & Hin & _).
    split; [|discriminate].
    intros [= E]. apply (Same k d); [now apply In_get|exact E].
Qed.

Lemma unmapped_events_are_left_alone_witness :
  let cfg := mk_config Datetime.utc None None "me@example.com" in
  let first := mk_google_event "g1" (Some "R") (Some "Standup") (Some "0a1b") in
  let second := mk_google_event "g2" (Some "R") (Some "Standup") (Some "0a1b") in
  mutations (main cfg [] (get_events_from_google_calendar [first; second]))
  = [Delete "g2"]
  /\ (Delete "g2" <> Delete (id first)
      /\ forall body, Delete "g2" <> Update (id first) body).
Proof.
  cbv zeta. split; [reflexivity|].
  apply (unmapped_events_are_left_alone
           (mk_config Datetime.utc None None "me@example.com") []
           [mk_google_event "g1" (Some "R") (Some "Standup") (Some "0a1b");
            mk_google_event "g2" (Some "R") (Some "Standup") (Some "0a1b")]
           (mk_google_event "g1" (Some "R") (Some "Standup") (Some "0a1b"))).
  - constructor.
  - simpl. repeat constructor; simpl; intuition discriminate.
  - now left.
  - intros k.
    change (get_events_from_google_calendar
              [mk_google_event "g1" (Some "R") (Some "Standup") (Some "0a1b");
               mk_google_event "g2" (Some "R") (Some "Standup") (Some "0a1b")])
      with [("R", mk_google_event "g2" (Some "R") (Some "Standup") (Some "0a1b"))].
    cbn [Dict.get]. destruct (String.eqb k "R"); intros E; discriminate E.
  - vm_compute. now left.
Defined.
